(** * devin-text: subscriptions, resize debounce, scroll tracking,
      lifecycle registries and page transitions

    A shallow embedding of the browser runtime of the repository:
    - [Subscribable] and [_Resize] (src/src/lib/subs.ts), and the copy of
      the three methods of [Subscribable] that the [_Scroll] class carries
      (src/unnamed/part_003, imported as [@lib/scroll]);
    - [Track] and [computeBounds] (src/unnamed/part_004, second file,
      imported as [@/modules/_]);
    - the lifecycle registries [onDestroy], [onPageOut], [runPageOut],
      [runDestroy] (src/src/utils/client-rect.ts, second file, imported
      as [@/modules/_]) and [_Pages.transitionOut] (src/src/lib/pages.ts);
    - [createCycles] (src/unnamed/part_004, first file).

    JavaScript numbers are idealised as rationals ([Q]); priorities are
    integers ([Z]), as the data model of the specification has them.
    Callbacks are arbitrary code in the source; here a callback is
    described by what it does to the objects under study (which calls it
    makes on them, whether it returns, throws, or how its promise
    settles).  What a binding called by [createCycles] does can differ
    from one call to the next.

    The second part of the development covers more of the same files:
    histories of [add] and [remove], runs of the debounce, the span of
    the bounds, the enter phase ([onMount], [onPageIn], [runMount],
    [runPageIn], [_Pages.transitionIn], the constructors of [_Pages] and
    [_App]) and [SimpleEmitter] (src/src/lib/hey.ts). *)

From Stdlib Require Import ZArith QArith Qminmax Lqa Lia List Sorted Permutation.
From stdpp Require Import base option list sorting gmap strings.

Local Open Scope Z_scope.
#[local] Set Warnings "-clear-no-such-hyp".

(* ===================================================================== *)
(** * Subscribable (src/src/lib/subs.ts, lines 5-26) *)
(* ===================================================================== *)

Module Subscribable.

(** Callbacks are named; what the function called [f] does when it is
    invoked is looked up in a table (the [body] variable below). *)
Abbreviation fnid := nat (only parsing).

(** [id = Symbol()]: symbols made by the default parameter are all
    distinct from one another and from the ones a caller passes. *)
Inductive symbol : Type :=
| Sym (n : nat)
| UserSym (n : nat).

#[global] Instance symbol_eq_dec : EqDecision symbol.
Proof. solve_decision. Defined.

(** An entry of [#subscribers]: [{ fn, priority, id }]. *)
Record sub : Type := Sub {
  fn : fnid;
  priority : Z;
  id : symbol;
}.

#[global] Instance sub_eq_dec : EqDecision sub.
Proof. solve_decision. Defined.

(** [Array.prototype.findIndex]: the first index whose element satisfies
    the predicate, [None] standing for the [-1] of JavaScript. *)
Fixpoint findIndex {A} (p : A -> bool) (l : list A) : option nat :=
  match l with
  | [] => None
  | x :: l' => if p x then Some O else S <$> findIndex p l'
  end.

(** [arr.splice(index, 0, x)]: insert [x] before position [index]. *)
Definition splice_insert {A} (index : nat) (x : A) (l : list A) : list A :=
  take index l ++ x :: drop index l.

(** The body of [add] on the array: [findIndex], then [push] or [splice]. *)
Definition add_entry (x : sub) (subscribers : list sub) : list sub :=
  match findIndex (fun s => priority x <? priority s) subscribers with
  | None => subscribers ++ [x]
  | Some index => splice_insert index x subscribers
  end.

(** The body of [remove]: a filtered copy. *)
Definition remove_entry (i : symbol) (subscribers : list sub) : list sub :=
  filter (fun f => id f <> i) subscribers.

(** The object: the private field and the supply of fresh symbols. *)
Record t : Type := Mk {
  subscribers : list sub;
  next_symbol : nat;
}.

Definition empty : t := {| subscribers := []; next_symbol := O |}.

(** One call [add(fn, priority, id)]; an omitted argument is [None]. *)
Record add_call : Type := AddCall {
  a_fn : fnid;
  a_priority : option Z;
  a_id : option symbol;
}.

(** The entry a call registers: [priority = 0], [id = Symbol()]. *)
Definition entry_of (c : add_call) (s : t) : sub :=
  {| fn := a_fn c;
     priority := default 0 (a_priority c);
     id := default (Sym (next_symbol s)) (a_id c) |}.

Definition add (c : add_call) (s : t) : t :=
  {| subscribers := add_entry (entry_of c s) (subscribers s);
     next_symbol := match a_id c with
                    | None => S (next_symbol s)
                    | Some _ => next_symbol s
                    end |}.

Definition remove (i : symbol) (s : t) : t :=
  {| subscribers := remove_entry i (subscribers s);
     next_symbol := next_symbol s |}.

(** What a callback does to the object that notifies it: it may subscribe,
    it may unsubscribe (directly or through the function [add] returned),
    and in the end it returns or throws. *)
Inductive action : Type :=
| ActAdd (c : add_call)
| ActRemove (i : symbol).

Inductive completion : Type :=
| Return
| Throw.

Record callback : Type := Callback {
  actions : list action;
  ending : completion;
}.

(** The state of a [forEach] in flight.  [forEach] holds the array object
    it was called on; [add] mutates the array the field points to in place
    ([push], [splice]) and [remove] makes the field point to a new array.
    [aliased] says whether the field still points to the array that is
    being iterated. *)
Record iteration : Type := Iteration {
  iterated : list sub;
  object : t;
  aliased : bool;
}.

Definition run_action (a : action) (it : iteration) : iteration :=
  match a with
  | ActAdd c =>
      let o := add c (object it) in
      {| iterated := if aliased it then subscribers o else iterated it;
         object := o;
         aliased := aliased it |}
  | ActRemove i =>
      {| iterated := iterated it;
         object := remove i (object it);
         aliased := false |}
  end.

Definition run_actions (l : list action) (it : iteration) : iteration :=
  foldl (fun acc a => run_action a acc) it l.

Section Notify.

Variable body : fnid -> callback.

(** [forEach] visits the indices [k, k+1, ..] below the length read when
    it started ([n] indices are left), reading the array as it is at the
    time of each visit.  The result is the iteration state, the entries
    whose callback was invoked, in order, and how the loop ended. *)
Fixpoint forEach (n : nat) (k : nat) (it : iteration)
  : iteration * list sub * completion :=
  match n with
  | O => (it, [], Return)
  | S n' =>
      match iterated it !! k with
      | None => forEach n' (S k) it
      | Some f =>
          let it' := run_actions (actions (body (fn f))) it in
          match ending (body (fn f)) with
          | Throw => (it', [f], Throw)
          | Return =>
              let '(it'', invoked, c) := forEach n' (S k) it' in
              (it'', f :: invoked, c)
          end
      end
  end.

(** [notify(data)]: nothing when there is no subscriber, else [forEach]. *)
Definition notify (s : t) : t * list sub * completion :=
  if (length (subscribers s) <? 1)%nat then (s, [], Return)
  else
    let '(it, invoked, c) :=
      forEach (length (subscribers s)) O
        {| iterated := subscribers s; object := s; aliased := true |} in
    (object it, invoked, c).

End Notify.

(** ** The subscriber list is kept in priority order *)

(** [add_entry] written by recursion on the array. *)
Fixpoint insert_after_le (x : sub) (l : list sub) : list sub :=
  match l with
  | [] => [x]
  | y :: l' =>
      if priority x <? priority y then x :: y :: l'
      else y :: insert_after_le x l'
  end.

Definition by_priority (a b : sub) : Prop := priority a <= priority b.

(** The entries that a sequence of calls registers, in call order. *)
Fixpoint entries (cs : list add_call) (s : t) : list sub :=
  match cs with
  | [] => []
  | c :: cs' => entry_of c s :: entries cs' (add c s)
  end.

Definition add_all (cs : list add_call) (s : t) : t :=
  foldl (fun acc c => add c acc) s cs.

(** The entries of priority [p], in the order of the list. *)
Definition with_priority (p : Z) (l : list sub) : list sub :=
  filter (fun f => priority f = p) l.

(** A callback that does not subscribe anything while it runs. *)
Definition is_remove (a : action) : bool :=
  match a with
  | ActRemove _ => true
  | ActAdd _ => false
  end.

Definition removes_only (b : callback) : Prop :=
  forallb is_remove (actions b) = true.

(** The symbols a callback unsubscribes. *)
Definition removed_by (b : callback) : list symbol :=
  actions b ≫= fun a =>
    match a with
    | ActRemove i => [i]
    | ActAdd _ => []
    end.

(** The symbols that the callbacks of the entries [invoked] unsubscribe. *)
Definition removals_of (body : fnid -> callback) (invoked : list sub)
  : list symbol :=
  invoked ≫= fun f => removed_by (body (fn f)).

(** [remove] called for each of [ids] in turn. *)
Definition remove_all (ids : list symbol) (l : list sub) : list sub :=
  foldl (fun acc i => remove_entry i acc) l ids.

(** The entries of an array up to and including the first one whose
    callback throws: what a loop that a throw ends goes through. *)
Fixpoint until_throw (body : fnid -> callback) (l : list sub) : list sub :=
  match l with
  | [] => []
  | f :: l' =>
      match ending (body (fn f)) with
      | Throw => [f]
      | Return => f :: until_throw body l'
      end
  end.

(** [live] is the stable sort by priority of the entries that the calls
    [cs] register on a new object: ordered by priority, the same entries,
    and the entries of one priority in call order. *)
Definition stable_by_priority (cs : list add_call) (live : list sub) : Prop :=
  StronglySorted by_priority live ∧
  Permutation live (entries cs empty) ∧
  ∀ p, with_priority p live = with_priority p (entries cs empty).

(** The order the specification asks of a notification that follows the
    calls [cs] on a new object: the callbacks are invoked by priority,
    those of one priority in call order.  Every entry is invoked, once,
    and the notification returns, when no callback throws; else the
    entries up to the first whose callback throws are invoked, and the
    notification throws. *)
Definition in_priority_order (body : fnid -> callback) (cs : list add_call)
    (invoked : list sub) (c : completion) : Prop :=
  ∃ live,
    stable_by_priority cs live ∧
    invoked = until_throw body live ∧
    (c = Return ↔ Forall (fun f => ending (body (fn f)) = Return) live) ∧
    (c = Return -> invoked = live) ∧
    StronglySorted by_priority invoked ∧
    ∀ p, with_priority p invoked `prefix_of` with_priority p (entries cs empty).

(** What the specification says of a callback that removes a subscriber
    during a notification: the subscriber removed is invoked all the same
    in that notification, and is not invoked by the next one. *)
Definition removal_takes_effect_later (body : fnid -> callback) (s : t) : Prop :=
  ∀ g r, g ∈ (notify body s).1.2 -> r ∈ subscribers s ->
         id r ∈ removed_by (body (fn g)) ->
         r ∈ (notify body s).1.2 ∧
         r ∉ (notify body (notify body s).1.1).1.2.

(** An entry whose callback returns and subscribes nothing while it runs. *)
Definition quiet (body : fnid -> callback) (g : sub) : Prop :=
  removes_only (body (fn g)) ∧ ending (body (fn g)) = Return.

(** Four calls: priorities 5, the default, 5 and -1. *)
Definition sample_calls : list add_call :=
  [ {| a_fn := 1; a_priority := Some 5; a_id := None |};
    {| a_fn := 2; a_priority := None; a_id := None |};
    {| a_fn := 3; a_priority := Some 5; a_id := None |};
    {| a_fn := 4; a_priority := Some (-1); a_id := Some (UserSym 7) |} ].

(** Callback 2 unsubscribes the entry of callback 3. *)
Definition sample_removing (f : fnid) : callback :=
  match f with
  | 2%nat => {| actions := [ActRemove (Sym 2)]; ending := Return |}
  | _ => {| actions := []; ending := Return |}
  end.

(** Callback 1 throws. *)
Definition sample_throwing (f : fnid) : callback :=
  match f with
  | 1%nat => {| actions := []; ending := Throw |}
  | _ => {| actions := []; ending := Return |}
  end.

(** Callback 1 subscribes two callbacks of lower priority while it runs. *)
Definition sample_subscribing (f : fnid) : callback :=
  match f with
  | 1%nat =>
      {| actions := [ActAdd {| a_fn := 3; a_priority := Some 0; a_id := None |};
                     ActAdd {| a_fn := 4; a_priority := Some 1; a_id := None |}];
         ending := Return |}
  | _ => {| actions := []; ending := Return |}
  end.

(** Two subscribers, of priorities 5 and 7. *)
Definition sample_pair : t :=
  add_all [ {| a_fn := 1; a_priority := Some 5; a_id := None |};
            {| a_fn := 2; a_priority := Some 7; a_id := None |} ] empty.

(** Callback 1 subscribes a callback of lower priority and then removes
    the entry of callback 2. *)
Definition sample_subscribing_remover (f : fnid) : callback :=
  match f with
  | 1%nat =>
      {| actions := [ActAdd {| a_fn := 3; a_priority := Some 0; a_id := None |};
                     ActRemove (Sym 1)];
         ending := Return |}
  | _ => {| actions := []; ending := Return |}
  end.

(** Callback 1 removes the entry of callback 2 and then throws. *)
Definition sample_throwing_remover (f : fnid) : callback :=
  match f with
  | 1%nat => {| actions := [ActRemove (Sym 1)]; ending := Throw |}
  | _ => {| actions := []; ending := Return |}
  end.

End Subscribable.

(* ===================================================================== *)
(** * Scroll (src/unnamed/part_003): the scroll position and the same
      three methods *)
(* ===================================================================== *)

Module Scroll.

(** [_Scroll] extends the smooth-scroll engine, of which only the scroll
    position is kept, and repeats [add], [remove] and [notify] of
    [Subscribable] word for word over a private [#subscribers] of its own. *)
Record t : Type := Mk {
  scroll : Q;
  subs : Subscribable.t;
}.

Definition add (c : Subscribable.add_call) (s : t) : t :=
  {| scroll := scroll s; subs := Subscribable.add c (subs s) |}.

Definition remove (i : Subscribable.symbol) (s : t) : t :=
  {| scroll := scroll s; subs := Subscribable.remove i (subs s) |}.

Definition notify (body : Subscribable.fnid -> Subscribable.callback) (s : t)
  : t * list Subscribable.sub * Subscribable.completion :=
  let '(o, invoked, c) := Subscribable.notify body (subs s) in
  ({| scroll := scroll s; subs := o |}, invoked, c).

(** [toTop()]: [scrollTo(0, { immediate: true })]. *)
Definition toTop (s : t) : t := {| scroll := 0%Q; subs := subs s |}.

End Scroll.

(* ===================================================================== *)
(** * Resize (src/src/lib/subs.ts, lines 41-70) *)
(* ===================================================================== *)

Module Resize.

Definition debounceDelay : nat := 100.

(** A timer of the window: the id [setTimeout] returned and the time, in
    milliseconds, at which its callback runs. *)
Record timer : Type := Timer {
  timer_id : nat;
  due : nat;
}.

(** The [Resize] object together with the part of the window it uses: the
    table of pending timers, in the order they were set, and the supply of
    timer ids (ids are positive). *)
Record t : Type := Mk {
  width : Q;
  height : Q;
  timeoutId : option nat;
  timers : list timer;
  next_timer : nat;
}.

(** A notification delivered to the subscribers: when, and the payload
    [{ width, height }]. *)
Record notification : Type := Notification {
  at_time : nat;
  n_width : Q;
  n_height : Q;
}.

(** [if (this.timeoutId)]: [null] and [0] are falsy. *)
Definition truthy (o : option nat) : bool :=
  match o with
  | Some (S _) => true
  | _ => false
  end.

Definition clearTimeout (i : nat) (l : list timer) : list timer :=
  filter (fun tm => timer_id tm <> i) l.

(** [update()], called at time [now]. *)
Definition update (now : nat) (r : t) : t :=
  let cleared :=
    if truthy (timeoutId r)
    then clearTimeout (default O (timeoutId r)) (timers r)
    else timers r in
  let i := S (next_timer r) in
  {| width := width r;
     height := height r;
     timeoutId := Some i;
     timers := cleared ++ [{| timer_id := i; due := (now + debounceDelay)%nat |}];
     next_timer := i |}.

Definition Qeqb (x y : Q) : bool := Qeq_bool x y.

Section Window.

(** [window.innerWidth] and [window.innerHeight] as they are at each time. *)
Variable innerWidth innerHeight : nat -> Q.

(** The callback given to [setTimeout], run at time [now]. *)
Definition timeout_callback (now : nat) (r : t) : t * list notification :=
  let newWidth := innerWidth now in
  let newHeight := innerHeight now in
  if negb (Qeqb newWidth (width r)) || negb (Qeqb newHeight (height r))
  then
    ({| width := newWidth; height := newHeight; timeoutId := None;
        timers := timers r; next_timer := next_timer r |},
     [{| at_time := now; n_width := newWidth; n_height := newHeight |}])
  else
    ({| width := width r; height := height r; timeoutId := None;
        timers := timers r; next_timer := next_timer r |}, []).

(** The window runs, in the order they were set, the callbacks of the
    timers in [pending] that are due at [now] or before, each at its due
    time; a timer that runs leaves the table. *)
Fixpoint fire (now : nat) (pending : list timer) (r : t) : t * list notification :=
  match pending with
  | [] => (r, [])
  | tm :: pending' =>
      if (due tm <=? now)%nat then
        let r1 := {| width := width r; height := height r;
                     timeoutId := timeoutId r;
                     timers := clearTimeout (timer_id tm) (timers r);
                     next_timer := next_timer r |} in
        let '(r2, out1) := timeout_callback (due tm) r1 in
        let '(r3, out2) := fire now pending' r2 in
        (r3, out1 ++ out2)
      else fire now pending' r
  end.

Definition advance (now : nat) (r : t) : t * list notification :=
  fire now (timers r) r.

(** A run of the window: the [resize] events happen at the given times
    (in order), and the run is watched until [horizon]. *)
Fixpoint run (events : list nat) (horizon : nat) (r : t) : t * list notification :=
  match events with
  | [] => advance horizon r
  | now :: events' =>
      let '(r1, out1) := advance now r in
      let '(r2, out2) := run events' horizon (update now r1) in
      (r2, out1 ++ out2)
  end.

End Window.

(** A burst: each event comes after the one before ([prev]) and less
    than [debounceDelay] milliseconds after it. *)
Fixpoint burst (prev : nat) (events : list nat) : Prop :=
  match events with
  | [] => True
  | now :: events' =>
      (prev <= now)%nat ∧ (now < prev + debounceDelay)%nat ∧ burst now events'
  end.

(** One timer is pending, the one [timeoutId] names, due at [d]. *)
Definition armed (d : nat) (r : t) : Prop :=
  ∃ i, timeoutId r = Some (S i) ∧ timers r = [{| timer_id := S i; due := d |}].

(** A window that is 1280 by 720 until time 150 and 1024 by 768 after. *)
Definition sample_innerWidth (now : nat) : Q :=
  if (now <? 150)%nat then 1280 else 1024.

Definition sample_innerHeight (now : nat) : Q :=
  if (now <? 150)%nat then 720 else 768.

Definition sample_resize : t :=
  {| width := 1280; height := 720; timeoutId := None; timers := [];
     next_timer := 0 |}.

End Resize.

(* ===================================================================== *)
(** * Track (src/unnamed/part_004, lines 66-187) *)
(* ===================================================================== *)

Module Track.

Local Open Scope Q_scope.

Inductive trigger : Type :=
| TopEdge
| CenterEdge
| BottomEdge.

(** The configuration: [bounds: [number, number]], [top], [bottom]. *)
Record config : Type := Config {
  bounds0 : Q;
  bounds1 : Q;
  top : trigger;
  bottom : trigger;
}.

Definition DEFAULT_CONFIG : config :=
  {| bounds0 := 0; bounds1 := 1; top := BottomEdge; bottom := TopEdge |}.

(** [element.getBoundingClientRect()], the fields that are read. *)
Record DOMRect : Type := Rect {
  rect_top : Q;
  rect_bottom : Q;
}.

(** The result of [clientRect] (src/src/utils/client-rect.ts, lines
    4-20), the fields that [computeBounds] reads and writes. *)
Record client_rect : Type := ClientRect {
  cr_top : Q;
  cr_bottom : Q;
  wh : Q;
}.

Definition clientRect (rect : DOMRect) (scroll : Q) (resize_height : Q) : client_rect :=
  {| cr_top := rect_top rect + scroll;
     cr_bottom := rect_bottom rect + scroll;
     wh := resize_height |}.

Definition computeBounds (rect : DOMRect) (scroll resize_height : Q) (cfg : config)
  : client_rect :=
  let bounds := clientRect rect scroll resize_height in
  let topPos := cr_top bounds in
  let bottomPos := cr_bottom bounds in
  let centerOffset := wh bounds / 2 in
  {| cr_top :=
       topPos -
       match top cfg with
       | CenterEdge => centerOffset
       | BottomEdge => wh bounds
       | TopEdge => 0
       end;
     cr_bottom :=
       bottomPos -
       match bottom cfg with
       | CenterEdge => centerOffset
       | BottomEdge => wh bounds
       | TopEdge => 0
       end;
     wh := wh bounds |}.

(** Modelled from the spec: [clamp] of utils/math, which is not among the
    sources.  The specification names the composition in the scroll
    handler [clamp01(map(..))]: the first two arguments are the lower and
    the upper limit, the third the number that is limited. *)
Definition clamp (lo hi v : Q) : Q := Qmin (Qmax v lo) hi.

(** Modelled from the spec: [map] of utils/math, which is not among the
    sources: [map(x, a, b, c, d)] sends the interval from [a] to [b]
    linearly onto the one from [c] to [d]; when [a] equals [b] the mapping
    is undefined (division by zero), here [None]. *)
Definition map (x a b c d : Q) : option Q :=
  if Qeq_bool a b then None
  else Some (c + (d - c) * (x - a) / (b - a)).

(** The fields of a [Track] that the scroll handler reads and writes;
    [value] is [None] when the number is not defined.  [inView] is kept
    by the base class [Observe], which is not among the sources: the
    specification has it say whether the element is reported in view. *)
Record t : Type := Mk {
  inView : bool;
  init : bool;
  value : option Q;
  bounds : client_rect;
  cfg : config;
}.

(** [#handleScroll()], with [Scroll.scroll] given: the new state and the
    value passed to the callbacks, if they are reached. *)
Definition handleScroll (scroll : Q) (tr : t) : t * option (option Q) :=
  if negb (inView tr) || negb (init tr) then (tr, None)
  else
    let v := clamp 0 1 <$>
               map scroll (cr_top (bounds tr)) (cr_bottom (bounds tr))
                   (bounds0 (cfg tr)) (bounds1 (cfg tr)) in
    ({| inView := inView tr; init := init tr; value := v;
        bounds := bounds tr; cfg := cfg tr |}, Some v).

(** [#resize]: the bounds are computed again, then the scroll handler runs. *)
Definition resize (rect : DOMRect) (scroll resize_height : Q) (tr : t)
  : t * option (option Q) :=
  handleScroll scroll
    {| inView := inView tr; init := init tr; value := value tr;
       bounds := computeBounds rect scroll resize_height (cfg tr);
       cfg := cfg tr |}.

(** The constructor, for an element that the observer reports in view or
    not ([in_view]): defaults merged, [#resize()], [init = true],
    [#handleScroll()]. *)
Definition new (rect : DOMRect) (scroll resize_height : Q) (c : config)
    (in_view : bool) : t :=
  let t0 := {| inView := in_view; init := false; value := Some 0;
               bounds := {| cr_top := 0; cr_bottom := 0; wh := 0 |};
               cfg := c |} in
  let t1 := fst (resize rect scroll resize_height t0) in
  let t2 := {| inView := inView t1; init := true; value := value t1;
               bounds := bounds t1; cfg := cfg t1 |} in
  fst (handleScroll scroll t2).

(** The documented scale example with other limits: [bounds: [2, 5]] on
    an element that spans 100 to 300 of the document, in a viewport 800
    high, the page not scrolled. *)
Definition sample_rect : DOMRect := {| rect_top := 100; rect_bottom := 300 |}.

Definition sample_config : config :=
  {| bounds0 := 2; bounds1 := 5; top := BottomEdge; bottom := TopEdge |}.

Definition sample_track : t := new sample_rect 0 800 sample_config true.

End Track.

(* ===================================================================== *)
(** * Lifecycle registries (src/src/utils/client-rect.ts, lines 45-102)
      and the page-transition controller (src/src/lib/pages.ts) *)
(* ===================================================================== *)

Module Lifecycle.

Abbreviation element := nat (only parsing).

(** How a promise settles. *)
Inductive settlement : Type :=
| Fulfilled
| Rejected.

(** What a function given to [onPageOut] does when it is called: it
    returns a promise that settles one way or the other (an [async]
    function that throws returns a promise that rejects), or it throws
    before it returns anything.  The callbacks of a phase are taken to
    register no callback while the phase runs. *)
Inductive behaviour : Type :=
| Settles (s : settlement)
| ThrowsSync.

Record page_fn : Type := PageFn {
  pf_name : nat;
  pf_does : behaviour;
}.

(** An entry of the [pageOut] array: the function itself, or the wrapper
    that [onPageOut] builds around it when an element is given. *)
Inductive pageOut_entry : Type :=
| Plain (f : page_fn)
| Guarded (el : element) (f : page_fn).

(** A function given to [onDestroy]: it returns or it throws. *)
Record destroy_fn : Type := DestroyFn {
  df_name : nat;
  df_throws : bool;
}.

Record DOMRect : Type := Rect {
  rect_top : Q;
  rect_bottom : Q;
}.

(** The module-level stores and what the callbacks read of the page. *)
Record world : Type := World {
  destroy : list destroy_fn;
  pageOut : list pageOut_entry;
  getBoundingClientRect : element -> DOMRect;
  Resize_height : Q;
  Scroll_scroll : Q;
}.

Definition set_destroy (l : list destroy_fn) (w : world) : world :=
  {| destroy := l; pageOut := pageOut w;
     getBoundingClientRect := getBoundingClientRect w;
     Resize_height := Resize_height w; Scroll_scroll := Scroll_scroll w |}.

Definition set_pageOut (l : list pageOut_entry) (w : world) : world :=
  {| destroy := destroy w; pageOut := l;
     getBoundingClientRect := getBoundingClientRect w;
     Resize_height := Resize_height w; Scroll_scroll := Scroll_scroll w |}.

Definition Scroll_toTop (w : world) : world :=
  {| destroy := destroy w; pageOut := pageOut w;
     getBoundingClientRect := getBoundingClientRect w;
     Resize_height := Resize_height w; Scroll_scroll := 0%Q |}.

Definition onDestroy (f : destroy_fn) (w : world) : world :=
  set_destroy (destroy w ++ [f]) w.

(** [onPageOut(fn, { element })]; [None] when no element is given. *)
Definition onPageOut (f : page_fn) (el : option element) (w : world) : world :=
  match el with
  | Some e => set_pageOut (pageOut w ++ [Guarded e f]) w
  | None => set_pageOut (pageOut w ++ [Plain f]) w
  end.

(** What can be observed of a transition. *)
Inductive event : Type :=
| EvCalled (name : nat)
| EvSettled (index : nat) (s : settlement)
| EvDestroyed (name : nat)
| EvScrollToTop.

#[global] Instance settlement_eq_dec : EqDecision settlement.
Proof. solve_decision. Defined.

#[global] Instance event_eq_dec : EqDecision event.
Proof. solve_decision. Defined.

Definition Qltb (x y : Q) : bool := negb (Qle_bool y x).

(** [rect.top < Resize.height && rect.bottom > 0]. *)
Definition isCurrentlyVisible (w : world) (el : element) : bool :=
  let rect := getBoundingClientRect w el in
  Qltb (rect_top rect) (Resize_height w) && Qltb 0 (rect_bottom rect).

(** Calling one entry, [fn()]: the functions that were called, and the
    promise that came back as the way it will settle, or [None] when the
    call threw. *)
Definition call_entry (w : world) (e : pageOut_entry)
  : list event * option settlement :=
  match e with
  | Plain f =>
      ([EvCalled (pf_name f)],
       match pf_does f with
       | Settles s => Some s
       | ThrowsSync => None
       end)
  | Guarded el f =>
      if isCurrentlyVisible w el then
        ([EvCalled (pf_name f)],
         Some match pf_does f with
              | Settles s => s
              | ThrowsSync => Rejected
              end)
      else ([], Some Fulfilled)
  end.

(** [pageOut.map((fn) => fn())]: every entry is called in turn; a call
    that throws ends the [map]. *)
Fixpoint map_call (w : world) (l : list pageOut_entry)
  : list event * option (list settlement) :=
  match l with
  | [] => ([], Some [])
  | e :: l' =>
      match call_entry w e with
      | (evs, None) => (evs, None)
      | (evs, Some p) =>
          let '(evs', ps) := map_call w l' in
          (evs ++ evs', cons p <$> ps)
      end
  end.

(** The promises settle in an order that the callbacks and the page
    decide, not the controller: [schedule] lists the indices of the
    promises in the order they settle.  An index that names no promise, or
    one that settled already, is passed over. *)
Fixpoint settle (promises : list settlement) (schedule : list nat)
    (settled : gset nat) : list event * gset nat :=
  match schedule with
  | [] => ([], settled)
  | i :: schedule' =>
      match promises !! i with
      | Some s =>
          if decide (i ∈ settled) then settle promises schedule' settled
          else
            let '(evs, done) := settle promises schedule' ({[i]} ∪ settled) in
            (EvSettled i s :: evs, done)
      | None => settle promises schedule' settled
      end
  end.

(** [Promise.allSettled] resumes the caller once every promise settled. *)
Definition all_settled (promises : list settlement) (settled : gset nat) : bool :=
  forallb (fun i => bool_decide (i ∈ settled)) (seq 0 (length promises)).

(** How the promise of an [async] function ends; [Pending] when, under
    the given schedule, it never does. *)
Inductive outcome : Type :=
| Resolves
| Rejects
| Pending.

(** [runPageOut()]. *)
Definition runPageOut (schedule : list nat) (w : world)
  : world * list event * outcome :=
  match map_call w (pageOut w) with
  | (evs, None) => (w, evs, Rejects)
  | (evs, Some promises) =>
      let '(evs', done) := settle promises schedule ∅ in
      if all_settled promises done
      then (set_pageOut [] w, evs ++ evs', Resolves)
      else (w, evs ++ evs', Pending)
  end.

(** [destroy.forEach((fn) => fn())]: [true] when a callback threw. *)
Fixpoint forEach_destroy (l : list destroy_fn) : list event * bool :=
  match l with
  | [] => ([], false)
  | f :: l' =>
      if df_throws f then ([EvDestroyed (df_name f)], true)
      else
        let '(evs, threw) := forEach_destroy l' in
        (EvDestroyed (df_name f) :: evs, threw)
  end.

(** [runDestroy()]. *)
Definition runDestroy (w : world) : world * list event * bool :=
  let '(evs, threw) := forEach_destroy (destroy w) in
  if threw then (w, evs, true) else (set_destroy [] w, evs, false).

(** [_Pages.transitionOut]: [await runPageOut()] (the outer
    [Promise.allSettled] is then given a list of one value that is not a
    promise and resumes at once), [runDestroy()], [Scroll.toTop()]. *)
Definition transitionOut (schedule : list nat) (w : world)
  : world * list event * outcome :=
  match runPageOut schedule w with
  | (w1, evs, Resolves) =>
      match runDestroy w1 with
      | (w2, evs', true) => (w2, evs ++ evs', Rejects)
      | (w2, evs', false) =>
          (Scroll_toTop w2, evs ++ evs' ++ [EvScrollToTop], Resolves)
      end
  | r => r
  end.

(** How the promise of a function settles once it was called. *)
Definition settles_as (f : page_fn) : settlement :=
  match pf_does f with
  | Settles s => s
  | ThrowsSync => Rejected
  end.

(** An entry whose call returns a promise. *)
Definition returns_promise (e : pageOut_entry) : Prop :=
  match e with
  | Plain f => pf_does f <> ThrowsSync
  | Guarded _ _ => True
  end.

(** No call of a registered callback throws: every [pageOut] entry
    returns a promise, every [destroy] callback returns. *)
Definition no_throw (w : world) : Prop :=
  Forall returns_promise (pageOut w) ∧
  Forall (fun d => df_throws d = false) (destroy w).

Definition is_call (e : event) : Prop :=
  match e with
  | EvCalled _ => True
  | _ => False
  end.

Definition settled_index (e : event) : option nat :=
  match e with
  | EvSettled i _ => Some i
  | _ => None
  end.

(** What the registry promises of the dispatch of one entry: a function
    registered as it is is called; a function registered with an element
    is called when the element is in view, and not called otherwise. *)
Definition expected_call (w : world) (e : pageOut_entry) : list event :=
  match e with
  | Plain f => [EvCalled (pf_name f)]
  | Guarded el f =>
      if isCurrentlyVisible w el then [EvCalled (pf_name f)] else []
  end.

Definition expected_calls (w : world) (l : list pageOut_entry) : list event :=
  l ≫= expected_call w.

(** The way the promise of an entry settles: as the function ends when
    it was called, fulfilled when the guard kept it from being called. *)
Definition settlement_of (w : world) (e : pageOut_entry) : settlement :=
  match e with
  | Plain f => settles_as f
  | Guarded el f => if isCurrentlyVisible w el then settles_as f else Fulfilled
  end.

(** The events [evs] are settlements of the promises [promises], each
    promise settling the way it should. *)
Definition settlements_of (promises : list settlement) (evs : list event) : Prop :=
  Forall (fun e => ∃ i s, e = EvSettled i s ∧ promises !! i = Some s) evs.

(** The events [evs] are the settlements of the promises [promises],
    each once. *)
Definition settles_each_once (promises : list settlement) (evs : list event)
  : Prop :=
  settlements_of promises evs ∧
  omap settled_index evs ≡ₚ seq 0 (length promises).

Definition destroyed (l : list destroy_fn) : list event :=
  (fun d => EvDestroyed (df_name d)) <$> l.

(** What the specification says of a leave phase: every [pageOut]
    callback is called (those behind a guard when their element is in
    view), the promise of each of them settles, only then every [destroy]
    callback runs, once and in registration order, and the scroll position
    is reset last; the phase ends without an error, both registries
    empty. *)
Definition leave_phase_completes (schedule : list nat) (w : world) : Prop :=
  ∃ settled,
    (transitionOut schedule w).1.2 =
      expected_calls w (pageOut w) ++ settled ++
      destroyed (destroy w) ++ [EvScrollToTop] ∧
    settles_each_once (settlement_of w <$> pageOut w) settled ∧
    (transitionOut schedule w).2 = Resolves ∧
    pageOut (transitionOut schedule w).1.1 = [] ∧
    destroy (transitionOut schedule w).1.1 = [] ∧
    (Scroll_scroll (transitionOut schedule w).1.1 == 0)%Q.

(** Two [destroy] callbacks, the first of which throws; no [pageOut]
    callback. *)
Definition throwing_destroy : world :=
  {| destroy := [{| df_name := 0; df_throws := true |};
                 {| df_name := 1; df_throws := false |}];
     pageOut := [];
     getBoundingClientRect := fun _ => {| rect_top := 0; rect_bottom := 0 |};
     Resize_height := 800;
     Scroll_scroll := 120 |}.

(** One [pageOut] callback, registered without a guard, that throws
    before it returns a promise; one [destroy] callback. *)
Definition throwing_pageOut : world :=
  {| destroy := [{| df_name := 1; df_throws := false |}];
     pageOut := [Plain {| pf_name := 0; pf_does := ThrowsSync |}];
     getBoundingClientRect := fun _ => {| rect_top := 0; rect_bottom := 0 |};
     Resize_height := 800;
     Scroll_scroll := 120 |}.

(** One [pageOut] callback behind the guard of an element that lies
    below the viewport. *)
Definition guard_out_of_view : world :=
  {| destroy := [];
     pageOut := [Guarded 7%nat {| pf_name := 0; pf_does := Settles Rejected |}];
     getBoundingClientRect := fun _ => {| rect_top := 900; rect_bottom := 1100 |};
     Resize_height := 800;
     Scroll_scroll := 0 |}.

(** Three [pageOut] callbacks, the second of which rejects, the third
    behind the guard of an element in view; two [destroy] callbacks. *)
Definition one_rejects : world :=
  {| destroy := [{| df_name := 10; df_throws := false |};
                 {| df_name := 11; df_throws := false |}];
     pageOut := [Plain {| pf_name := 0; pf_does := Settles Fulfilled |};
                 Plain {| pf_name := 1; pf_does := Settles Rejected |};
                 Guarded 7%nat {| pf_name := 2; pf_does := ThrowsSync |}];
     getBoundingClientRect := fun _ => {| rect_top := 100; rect_bottom := 300 |};
     Resize_height := 800;
     Scroll_scroll := 120 |}.

(** The page of [one_rejects] before the third callback is registered. *)
Definition two_registered : world :=
  set_pageOut [Plain {| pf_name := 0; pf_does := Settles Fulfilled |};
               Plain {| pf_name := 1; pf_does := Settles Rejected |}] one_rejects.

(** Three [pageOut] callbacks, the second behind the guard of an element
    that lies below the viewport. *)
Definition guard_between : world :=
  {| destroy := [];
     pageOut := [Plain {| pf_name := 0; pf_does := Settles Fulfilled |};
                 Guarded 7%nat {| pf_name := 1; pf_does := Settles Rejected |};
                 Plain {| pf_name := 2; pf_does := Settles Rejected |}];
     getBoundingClientRect := fun _ => {| rect_top := 900; rect_bottom := 1100 |};
     Resize_height := 800;
     Scroll_scroll := 0 |}.

(** The page of [guard_between] when only its first callback is
    registered. *)
Definition one_registered : world :=
  set_pageOut [Plain {| pf_name := 0; pf_does := Settles Fulfilled |}] guard_between.

End Lifecycle.

(* ===================================================================== *)
(** * createCycles (src/unnamed/part_004, lines 11-60) *)
(* ===================================================================== *)

Module Cycles.

(** The values a binding can return, as far as [item !== null] tells
    them apart. *)
Inductive jsval : Type :=
| Null
| Undefined
| Component (n : nat).

#[global] Instance jsval_eq_dec : EqDecision jsval.
Proof. solve_decision. Defined.

(** An element matched by [[data-module]]: which element it is, the
    value of [dataset[dataAttribute]], and its [_moduleInitialized]
    property ([false]: absent). *)
Record HTMLElement : Type := Element {
  el_id : nat;
  attributeValue : string;
  _moduleInitialized : bool;
}.

(** A call of a binding returns a value or throws. *)
Inductive result : Type :=
| Returned (v : jsval)
| Thrown (error : string).

(** The [default] export of a module.  A binding is arbitrary code: what
    a call of it returns or throws can differ from one call to the next
    (it may read the page, keep a counter, ask the time).
    [moduleFn n el] is what the call on [el] does when [n] calls of
    bindings were made before it since the page was loaded. *)
Inductive export : Type :=
| DefaultFunction (moduleFn : nat -> HTMLElement -> result)
| NotAFunction.

Inductive warning : Type :=
| FailedToCall (value : string) (error : string)
| DefaultNotAFunction (value : string)
| NotFound (value : string).

(** What one element adds to the scan: the item [map] collects, the
    warnings logged, and the elements whose binding was called. *)
Record step : Type := Step {
  element_after : HTMLElement;
  item : jsval;
  warned : list warning;
  called : list nat;
}.

Definition set_initialized (b : bool) (e : HTMLElement) : HTMLElement :=
  {| el_id := el_id e; attributeValue := attributeValue e;
     _moduleInitialized := b |}.

Section Modules.

(** [import.meta.glob("../*.{ts,js}", { eager: true })]. *)
Variable modules : gmap string export.

(** [modulePath]: the [.ts] path when the table has it, else the [.js]
    path. *)
Definition modulePath (value : string) : string :=
  if bool_decide (is_Some (modules !! ("./../" +:+ value +:+ ".ts")))
  then "./../" +:+ value +:+ ".ts"
  else "./../" +:+ value +:+ ".js".

(** The function given to [map], [clock] calls of bindings having been
    made before. *)
Definition visit (clock : nat) (htmlElement : HTMLElement) : step :=
  let value := attributeValue htmlElement in
  if _moduleInitialized htmlElement then
    {| element_after := htmlElement; item := Null; warned := []; called := [] |}
  else
    match modules !! modulePath value with
    | Some (DefaultFunction moduleFn) =>
        let marked := set_initialized true htmlElement in
        match moduleFn clock marked with
        | Returned v =>
            {| element_after := marked; item := v; warned := [];
               called := [el_id htmlElement] |}
        | Thrown error =>
            {| element_after := set_initialized false marked; item := Null;
               warned := [FailedToCall value error];
               called := [el_id htmlElement] |}
        end
    | Some NotAFunction =>
        {| element_after := htmlElement; item := Null;
           warned := [DefaultNotAFunction value]; called := [] |}
    | None =>
        {| element_after := htmlElement; item := Null;
           warned := [NotFound value]; called := [] |}
    end.

(** [map] over the elements, in document order: every call of a binding
    counts. *)
Fixpoint visits (clock : nat) (dom : list HTMLElement) : list step :=
  match dom with
  | [] => []
  | e :: l =>
      let s := visit clock e in
      s :: visits (clock + length (called s)) l
  end.

(** The outcome of a scan: the elements as the scan leaves them, the
    array returned, the warnings, the elements whose binding was called,
    in order, and the number of calls of bindings made by then. *)
Record scan : Type := Scan {
  document : list HTMLElement;
  returned : list jsval;
  warnings : list warning;
  calls : list nat;
  clock_after : nat;
}.

(** [createCycles()] over the elements [querySelectorAll] finds. *)
Definition createCycles (clock : nat) (dom : list HTMLElement) : scan :=
  let steps := visits clock dom in
  {| document := element_after <$> steps;
     returned := filter (fun i => i <> Null) (item <$> steps);
     warnings := steps ≫= warned;
     calls := steps ≫= called;
     clock_after := clock + length (steps ≫= called) |}.

End Modules.

(** The binding of the element was called and returned. *)
Definition binding_returned (s : step) : bool :=
  match called s, warned s with
  | _ :: _, [] => true
  | _, _ => false
  end.

(** The binding of the element was called and threw. *)
Definition binding_threw (s : step) : bool :=
  match called s, warned s with
  | _ :: _, _ :: _ => true
  | _, _ => false
  end.

(** What the specification says of a second scan: every element whose
    binding the first scan called carries the marker, and the second scan
    calls no binding for it. *)
Definition rescan_skips_every_called_element
    (modules : gmap string export) (clock : nat) (dom : list HTMLElement) : Prop :=
  let first := createCycles modules clock dom in
  let second := createCycles modules (clock_after first) (document first) in
  ∀ e, e ∈ document first -> el_id e ∈ calls first ->
       _moduleInitialized e = true ∧ el_id e ∉ calls second.

(** A table with a module whose binding returns a component, one whose
    binding throws, and one whose default export is not a function. *)
Definition sample_modules : gmap string export :=
  <["./../ok.ts" := DefaultFunction (fun _ e => Returned (Component (el_id e)))]>
  (<["./../boom.js" := DefaultFunction (fun _ _ => Thrown "boom")]>
  (<["./../data.ts" := NotAFunction]> ∅)).

Definition sample_dom : list HTMLElement :=
  [ {| el_id := 0; attributeValue := "ok"; _moduleInitialized := false |};
    {| el_id := 1; attributeValue := "boom"; _moduleInitialized := false |};
    {| el_id := 2; attributeValue := "data"; _moduleInitialized := false |};
    {| el_id := 3; attributeValue := "missing"; _moduleInitialized := false |} ].

(** A table with a module whose binding throws when it is the first
    binding called on the page, and returns afterwards. *)
Definition sample_flaky : gmap string export :=
  <["./../late.ts" :=
      DefaultFunction (fun n e =>
        match n with
        | O => Thrown "not ready"
        | S _ => Returned (Component (el_id e))
        end)]> ∅.

Definition sample_lazy : HTMLElement :=
  {| el_id := 6; attributeValue := "late"; _moduleInitialized := false |}.

End Cycles.

(* ===================================================================== *)
(** * Histories of a Subscribable (src/src/lib/subs.ts, lines 8-20) *)
(* ===================================================================== *)

Module SubscribableOps.

Import Subscribable.

(** A call made on the object from outside a notification. *)
Inductive op : Type :=
| OpAdd (c : add_call)
| OpRemove (i : symbol).

Definition run_op (o : op) (s : t) : t :=
  match o with
  | OpAdd c => add c s
  | OpRemove i => remove i s
  end.

Definition run_ops (ops : list op) (s : t) : t :=
  foldl (fun acc o => run_op o acc) s ops.

(** The entries that a history leaves subscribed, in the order they were
    added: [acc] holds those of the calls made so far. *)
Fixpoint live (ops : list op) (s : t) (acc : list sub) : list sub :=
  match ops with
  | [] => acc
  | o :: ops' =>
      live ops' (run_op o s)
        match o with
        | OpAdd c => acc ++ [entry_of c s]
        | OpRemove i => remove_entry i acc
        end
  end.

(** [l] is [acc] sorted by priority, entries of one priority kept in the
    order they have in [acc]. *)
Definition stable_sort_of (acc l : list sub) : Prop :=
  StronglySorted by_priority l ∧
  l ≡ₚ acc ∧
  ∀ p, with_priority p l = with_priority p acc.

(** The function that [add] returns, [() => this.remove(id)], for the
    call [c] made on the object in state [s]. *)
Definition unsubscribe (c : add_call) (s : t) : t -> t :=
  remove (id (entry_of c s)).

(** The symbols made by the default parameter never leave [add]: a
    symbol that a caller passes is one of its own. *)
Definition own_symbol (i : symbol) : Prop :=
  match i with
  | UserSym _ => True
  | Sym _ => False
  end.

Definition caller_op (o : op) : Prop :=
  match o with
  | OpAdd c => from_option own_symbol True (a_id c)
  | OpRemove i => own_symbol i
  end.

(** The symbols of the default parameter that are in the array were all
    made before the next one. *)
Definition symbols_below (s : t) : Prop :=
  Forall (fun f => ∀ n, id f = Sym n -> (n < next_symbol s)%nat) (subscribers s).

(** The array under a loop that started on [L] still begins with [L];
    the [extra] entries added since, of priority [m] or more, sit behind. *)
Definition grown (m : Z) (L : list sub) (it : iteration) (extra : nat) : Prop :=
  ∃ E, iterated it = L ++ E ∧ length E = extra ∧
       Forall (fun f => m <= priority f) E ∧
       aliased it = true ∧ subscribers (object it) = iterated it.

(** A callback that returns, and that while it runs only subscribes
    callbacks of priority [m] or more. *)
Definition is_late_add (m : Z) (a : action) : bool :=
  match a with
  | ActAdd c => m <=? default 0 (a_priority c)
  | ActRemove _ => false
  end.

Definition subscribes_late (m : Z) (b : callback) : Prop :=
  forallb (is_late_add m) (actions b) = true ∧ ending b = Return.

(** Callback 1 subscribes callback 9 with priority 6 while it runs. *)
Definition sample_late (f : fnid) : callback :=
  match f with
  | 1%nat =>
      {| actions := [ActAdd {| a_fn := 9; a_priority := Some 6; a_id := None |}];
         ending := Return |}
  | _ => {| actions := []; ending := Return |}
  end.

Definition sample_ops : list op :=
  [ OpAdd {| a_fn := 1; a_priority := Some 5; a_id := None |};
    OpAdd {| a_fn := 2; a_priority := None; a_id := Some (UserSym 7) |};
    OpRemove (UserSym 3);
    OpAdd {| a_fn := 3; a_priority := Some 5; a_id := None |} ].

End SubscribableOps.

(* ===================================================================== *)
(** * Runs of the Resize debounce, and the span of the Track bounds *)
(* ===================================================================== *)

Module ResizeRuns.

Import Resize.

(** The notifications [l], delivered in this order to subscribers that
    last knew the size [w] by [h], each announce a size that differs from
    the one known before it. *)
Fixpoint no_repeat (w h : Q) (l : list notification) : Prop :=
  match l with
  | [] => True
  | n :: l' =>
      ¬ (n_width n == w ∧ n_height n == h)%Q ∧
      no_repeat (n_width n) (n_height n) l'
  end.

(** The size announced last, [w] by [h] when nothing was announced. *)
Fixpoint last_size (w h : Q) (l : list notification) : Q * Q :=
  match l with
  | [] => (w, h)
  | n :: l' => last_size (n_width n) (n_height n) l'
  end.

(** What a run from [r] keeps true of its result: the notifications
    never repeat the size known before, and the stored size is the one
    announced last. *)
Definition tracks (r : t) (res : t * list notification) : Prop :=
  no_repeat (width r) (height r) res.2 ∧
  (width res.1, height res.1) = last_size (width r) (height r) res.2.

(** No timer is pending, or just the one that [timeoutId] names. *)
Definition at_most_one (r : t) : Prop :=
  timers r = [] ∨ ∃ d, armed d r.

(** A window that keeps changing between two sizes. *)
Definition sample_flicker_width (now : nat) : Q :=
  if Nat.even (now / 100) then 1280 else 1024.

Definition sample_flicker_height (now : nat) : Q := 720.

End ResizeRuns.

Module TrackBounds.

Import Track.
Local Open Scope Q_scope.

(** The rect that [getBoundingClientRect] gives, with the page scrolled
    to [scroll], for an element that spans [doc_top] to [doc_bottom] of
    the document. *)
Definition rect_at (doc_top doc_bottom scroll : Q) : DOMRect :=
  {| rect_top := doc_top - scroll; rect_bottom := doc_bottom - scroll |}.

End TrackBounds.

(* ===================================================================== *)
(** * More of createCycles (src/unnamed/part_004, lines 11-65) *)
(* ===================================================================== *)

Module CyclesMore.

Import Cycles.

(** [clearModuleInitialization(element)]: [delete element._moduleInitialized]. *)
Definition clearModuleInitialization (element : HTMLElement) : HTMLElement :=
  set_initialized false element.

(** The marker an element carries after the scan made the step [s] on
    it. *)
Definition marked_after (e : HTMLElement) (s : step) : bool :=
  _moduleInitialized e || binding_returned s.

(** A warning that a binding threw; the other warnings are about the
    table of modules. *)
Definition is_failed_call (w : warning) : Prop :=
  match w with
  | FailedToCall _ _ => True
  | _ => False
  end.

#[global] Instance is_failed_call_dec w : Decision (is_failed_call w).
Proof. destruct w; simpl; apply _. Defined.

(** A table that has a [.ts] module without a function and a [.js] module
    with one under the same name. *)
Definition sample_shadowed : gmap string export :=
  <["./../menu.ts" := NotAFunction]>
  (<["./../menu.js" := DefaultFunction (fun _ e => Returned (Component (el_id e)))]> ∅).

Definition sample_menu : HTMLElement :=
  {| el_id := 4; attributeValue := "menu"; _moduleInitialized := false |}.

End CyclesMore.

(* ===================================================================== *)
(** * The enter phase: [onMount], [runMount], [onPageIn], [runPageIn]
      (src/src/utils/client-rect.ts, lines 45-102), [_Pages.transitionIn]
      and the constructors of [_Pages] and [_App] (src/src/lib/pages.ts,
      src/src/app.ts) *)
(* ===================================================================== *)

Module Enter.

Import Lifecycle.

(** What a binding does to the registries while it is called. *)
Inductive registration : Type :=
| RegMount (f : destroy_fn)
| RegDestroy (f : destroy_fn)
| RegPageIn (f : page_fn)
| RegPageOut (f : page_fn) (el : option element).

(** The page: the elements that carry [data-module], the number of
    calls of bindings made so far, the [mount] and [pageIn] arrays, and
    the stores of the leave phase. *)
Record t : Type := Mk {
  dom : list Cycles.HTMLElement;
  clock : nat;
  mount : list destroy_fn;
  pageIn : list page_fn;
  leave : world;
}.

Definition onMount (f : destroy_fn) (p : t) : t :=
  {| dom := dom p; clock := clock p; mount := mount p ++ [f];
     pageIn := pageIn p; leave := leave p |}.

Definition onPageIn (f : page_fn) (p : t) : t :=
  {| dom := dom p; clock := clock p; mount := mount p;
     pageIn := pageIn p ++ [f]; leave := leave p |}.

Definition register (r : registration) (p : t) : t :=
  match r with
  | RegMount f => onMount f p
  | RegPageIn f => onPageIn f p
  | RegDestroy f =>
      {| dom := dom p; clock := clock p; mount := mount p; pageIn := pageIn p;
         leave := onDestroy f (leave p) |}
  | RegPageOut f el =>
      {| dom := dom p; clock := clock p; mount := mount p; pageIn := pageIn p;
         leave := onPageOut f el (leave p) |}
  end.

(** What can be observed of an enter phase: the bindings called by
    [createCycles], the calls [Scroll.resize()] and [Resize.update()], the
    calls and settlements of the [pageIn] callbacks, the [mount] callbacks. *)
Inductive event : Type :=
| Bound (id : nat)
| ScrollResize
| ResizeUpdate
| Phase (e : Lifecycle.event)
| Mounted (name : nat).

(** How a constructor ends. *)
Inductive completion : Type :=
| Return
| Throw.

(** [mount.forEach((fn) => fn())]: [true] when a callback threw. *)
Fixpoint forEach_mount (l : list destroy_fn) : list event * bool :=
  match l with
  | [] => ([], false)
  | f :: l' =>
      if df_throws f then ([Mounted (df_name f)], true)
      else
        let '(evs, threw) := forEach_mount l' in
        (Mounted (df_name f) :: evs, threw)
  end.

(** [runMount()]. *)
Definition runMount (p : t) : t * list event * bool :=
  let '(evs, threw) := forEach_mount (mount p) in
  if threw then (p, evs, true)
  else ({| dom := dom p; clock := clock p; mount := []; pageIn := pageIn p;
           leave := leave p |},
        evs, false).

Definition clear_pageIn (p : t) : t :=
  {| dom := dom p; clock := clock p; mount := mount p; pageIn := [];
     leave := leave p |}.

(** [runPageIn()]: the callbacks are in the array as they were given. *)
Definition runPageIn (schedule : list nat) (p : t) : t * list event * outcome :=
  match map_call (leave p) (Plain <$> pageIn p) with
  | (evs, None) => (p, Phase <$> evs, Rejects)
  | (evs, Some promises) =>
      let '(evs', done) := settle promises schedule ∅ in
      if all_settled promises done
      then (clear_pageIn p, Phase <$> (evs ++ evs'), Resolves)
      else (p, Phase <$> (evs ++ evs'), Pending)
  end.

Section Bindings.

Variable modules : gmap string Cycles.export.

(** What a call of the binding of the element [id] registers before it
    returns or throws, [n] calls of bindings having been made before: like
    the outcome of the call, it can differ from one call to the next. *)
Variable registers : nat -> nat -> list registration.

(** What the bindings called one after the other register. *)
Fixpoint registrations (clock : nat) (calls : list nat) : list registration :=
  match calls with
  | [] => []
  | id :: calls' => registers clock id ++ registrations (S clock) calls'
  end.

(** [createCycles()], with what the bindings it calls register. *)
Definition createCycles (p : t) : t * list event :=
  let scanned := Cycles.createCycles modules (clock p) (dom p) in
  (foldl (fun acc r => register r acc)
     {| dom := Cycles.document scanned; clock := Cycles.clock_after scanned;
        mount := mount p; pageIn := pageIn p; leave := leave p |}
     (registrations (clock p) (Cycles.calls scanned)),
   Bound <$> Cycles.calls scanned).

(** [_Pages.transitionIn]: [createCycles()], [Scroll.resize()],
    [Resize.update()], [await runPageIn()], [runMount()]. *)
Definition transitionIn (schedule : list nat) (p : t) : t * list event * outcome :=
  let '(p1, bound) := createCycles p in
  let before := bound ++ [ScrollResize; ResizeUpdate] in
  match runPageIn schedule p1 with
  | (p2, evs, Resolves) =>
      match runMount p2 with
      | (p3, evs', true) => (p3, before ++ evs ++ evs', Rejects)
      | (p3, evs', false) => (p3, before ++ evs ++ evs', Resolves)
      end
  | (p2, evs, o) => (p2, before ++ evs, o)
  end.

(** The constructors of [_Pages] and of [_App]: [createCycles()],
    [runPageIn()] without [await], [runMount()].  The [pageIn] callbacks
    are called at once; their promises settle, and [runPageIn] truncates
    the array, after the constructor has ended. *)
Definition constructor (schedule : list nat) (p : t) : t * list event * completion :=
  let '(p1, bound) := createCycles p in
  let '(called, promises) := map_call (leave p1) (Plain <$> pageIn p1) in
  let '(p2, mounted, threw) := runMount p1 in
  let '(p3, settled) :=
    match promises with
    | None => (p2, [])
    | Some ps =>
        let '(evs, done) := settle ps schedule ∅ in
        (if all_settled ps done then clear_pageIn p2 else p2, evs)
    end in
  (p3, bound ++ (Phase <$> called) ++ mounted ++ (Phase <$> settled),
   if threw then Throw else Return).

End Bindings.

Definition mounted (l : list destroy_fn) : list event :=
  (fun f => Mounted (df_name f)) <$> l.

Definition mounts (rs : list registration) : list destroy_fn :=
  rs ≫= fun r => match r with RegMount f => [f] | _ => [] end.

Definition pageIns (rs : list registration) : list page_fn :=
  rs ≫= fun r => match r with RegPageIn f => [f] | _ => [] end.

(** The calls that dispatching the [pageIn] array makes: every callback,
    in registration order. *)
Definition pageIn_calls (l : list page_fn) : list Lifecycle.event :=
  (fun f => EvCalled (pf_name f)) <$> l.

(** The binding of element 0 registers one callback of each kind; the
    binding of element 1 registers a [mount] callback before it throws,
    another one at each call. *)
Definition sample_registers (n id : nat) : list registration :=
  match id with
  | 0%nat =>
      [ RegPageIn {| pf_name := 20; pf_does := Settles Rejected |};
        RegMount {| df_name := 21; df_throws := false |};
        RegDestroy {| df_name := 22; df_throws := false |};
        RegPageOut {| pf_name := 23; pf_does := Settles Fulfilled |} None ]
  | 1%nat => [ RegMount {| df_name := (30 + n)%nat; df_throws := false |} ]
  | _ => []
  end.

Definition sample_page : t :=
  {| dom := Cycles.sample_dom; clock := 0; mount := []; pageIn := [];
     leave := {| destroy := []; pageOut := [];
                 getBoundingClientRect :=
                   fun _ => {| rect_top := 0; rect_bottom := 0 |};
                 Resize_height := 800; Scroll_scroll := 0 |} |}.

(** A page whose only [pageIn] callback throws before it returns a
    promise, with one [mount] callback. *)
Definition sample_throwing_pageIn : t :=
  {| dom := []; clock := 0; mount := [{| df_name := 41; df_throws := false |}];
     pageIn := [{| pf_name := 40; pf_does := ThrowsSync |}];
     leave := leave sample_page |}.

End Enter.

(* ===================================================================== *)
(** * SimpleEmitter (src/src/lib/hey.ts, lines 106-236) *)
(* ===================================================================== *)

Module Emitter.

(** A handler in the registry: a function that the caller gave to [on],
    or the wrapper [onceHandler] that a call of [once] made around the
    function [h] for the event [event].  Every call of [once] makes a new
    wrapper; [serial] tells them apart. *)
Inductive handler : Type :=
| Given (h : nat)
| OnceHandler (serial : nat) (event : string) (h : nat).

#[global] Instance handler_eq_dec : EqDecision handler.
Proof. solve_decision. Defined.

(** The names of the properties that every object inherits from
    [Object.prototype].  [this.events] is a plain object ([{}]): under
    such a name [this.events[event]] is not [undefined] on a new emitter
    but the inherited function (or, for [__proto__], the prototype
    itself), a value that is truthy and has no [push], [filter] or
    [forEach]. *)
Definition Object_prototype : list string :=
  [ "constructor"; "__proto__"; "hasOwnProperty"; "isPrototypeOf";
    "propertyIsEnumerable"; "toLocaleString"; "toString"; "valueOf";
    "__defineGetter__"; "__defineSetter__"; "__lookupGetter__";
    "__lookupSetter__" ].

Definition inherited (event : string) : bool :=
  bool_decide (event ∈ Object_prototype).

(** The emitter: the own properties of [this.events], and the number of
    wrappers made so far. *)
Record t : Type := Mk {
  events : gmap string (list handler);
  next_serial : nat;
}.

Definition empty : t := {| events := ∅; next_serial := 0 |}.

(** [this.events[event]]: an array of the registry, an inherited value,
    or [undefined]. *)
Inductive property : Type :=
| Own (l : list handler)
| Inherited
| Absent.

Definition get (event : string) (s : t) : property :=
  match events s !! event with
  | Some l => Own l
  | None => if inherited event then Inherited else Absent
  end.

(** The handlers registered for an event, none when the registry has no
    entry for it. *)
Definition handlers (event : string) (s : t) : list handler :=
  default [] (events s !! event).

(** How a call ends; [Throw] is also the [TypeError] of a call of a
    method that the value does not have. *)
Inductive completion : Type :=
| Return
| Throw.

(** [on(event, handler)]: the entry is made if [this.events[event]] is
    falsy, then the handler is pushed; an inherited value is truthy and
    has no [push]. *)
Definition on (event : string) (x : handler) (s : t) : t * completion :=
  match get event s with
  | Absent =>
      ({| events := <[event := [x]]> (events s);
          next_serial := next_serial s |}, Return)
  | Own l =>
      ({| events := <[event := l ++ [x]]> (events s);
          next_serial := next_serial s |}, Return)
  | Inherited => (s, Throw)
  end.

(** [off(event, handler)]: nothing when [this.events[event]] is falsy;
    else the entry becomes a filtered copy; an inherited value has no
    [filter]. *)
Definition off (event : string) (x : handler) (s : t) : t * completion :=
  match get event s with
  | Absent => (s, Return)
  | Own l =>
      ({| events := <[event := filter (fun h => h <> x) l]> (events s);
          next_serial := next_serial s |}, Return)
  | Inherited => (s, Throw)
  end.

(** [once(event, handler)]: a new wrapper is registered with [on]. *)
Definition once (event : string) (h : nat) (s : t) : t * completion :=
  on event (OnceHandler (next_serial s) event h)
     {| events := events s; next_serial := S (next_serial s) |}.

Section Emit.

(** Whether the function [h] of the caller throws when it is called.
    What else it does is outside the emitter. *)
Variable throws : nat -> bool.

(** Calling one handler.  The wrapper calls the function and then
    [this.off(event, onceHandler)], which is not reached when the
    function throws. *)
Definition call (x : handler) (s : t) : t * completion :=
  match x with
  | Given h => (s, if throws h then Throw else Return)
  | OnceHandler _ event h =>
      if throws h then (s, Throw) else off event x s
  end.

(** [forEach] over the array that the entry held when [emit] started:
    [off] replaces the entry by a copy and leaves that array alone. *)
Fixpoint forEach (l : list handler) (s : t) : t * list handler * completion :=
  match l with
  | [] => (s, [], Return)
  | x :: l' =>
      match call x s with
      | (s', Throw) => (s', [x], Throw)
      | (s', Return) =>
          let '(s'', invoked, c) := forEach l' s' in
          (s'', x :: invoked, c)
      end
  end.

(** [emit(event, data)]: the state after, the handlers invoked, in
    order, and whether the call threw; an inherited value is truthy and
    has no [forEach]. *)
Definition emit (event : string) (s : t) : t * list handler * completion :=
  match get event s with
  | Absent => (s, [], Return)
  | Own l => forEach l s
  | Inherited => (s, [], Throw)
  end.

Definition returns (x : handler) : Prop :=
  match x with
  | Given h => throws h = false
  | OnceHandler _ _ h => throws h = false
  end.

End Emit.

Definition is_given (x : handler) : Prop :=
  match x with
  | Given _ => True
  | OnceHandler _ _ _ => False
  end.

#[global] Instance is_given_dec x : Decision (is_given x).
Proof. destruct x; simpl; apply _. Defined.

(** The wrappers in the entry of an event were made for that event, by
    one of the calls of [once] made so far. *)
Definition made_for (event : string) (n : nat) (x : handler) : Prop :=
  match x with
  | Given _ => True
  | OnceHandler k e _ => e = event ∧ (k < n)%nat
  end.

(** The registry has no entry of its own under an inherited name, and
    the wrappers are where they were made for. *)
Definition well_formed (s : t) : Prop :=
  ∀ event l, events s !! event = Some l ->
             inherited event = false ∧
             Forall (made_for event (next_serial s)) l.

(** A call made on the emitter by its user. *)
Inductive op : Type :=
| OpOn (event : string) (h : nat)
| OpOnce (event : string) (h : nat)
| OpOff (event : string) (h : nat).

(** The emitter after the call, whether it returned or threw. *)
Definition run_op (o : op) (s : t) : t :=
  match o with
  | OpOn e h => (on e (Given h) s).1
  | OpOnce e h => (once e h s).1
  | OpOff e h => (off e (Given h) s).1
  end.

Definition run_ops (ops : list op) (s : t) : t :=
  foldl (fun acc o => run_op o acc) s ops.

(** Function 3 throws. *)
Definition sample_throws (h : nat) : bool :=
  match h with
  | 3%nat => true
  | _ => false
  end.

Definition sample_history : list op :=
  [ OpOn "user" 1; OpOnce "user" 2; OpOn "cart" 1; OpOn "user" 1 ].

End Emitter.

(* ===================================================================== *)
(** * Properties of Subscribable *)
(* ===================================================================== *)

Module SubscribableFacts.

Import Subscribable.

Lemma add_entry_insert x l : add_entry x l = insert_after_le x l.
Proof.
  unfold add_entry, splice_insert.
  induction l as [|y l IH]; simpl; [done|].
  destruct (priority x <? priority y); simpl; [done|].
  destruct (findIndex _ l) as [i|]; simpl in *; by rewrite IH.
Qed.

Lemma insert_after_le_perm x l : Permutation (insert_after_le x l) (l ++ [x]).
Proof.
  induction l as [|y l IH]; simpl; [done|].
  destruct (priority x <? priority y).
  - change (x :: y :: l) with ([x] ++ (y :: l)).
    apply Permutation_app_comm.
  - by constructor.
Qed.

Lemma insert_after_le_sorted x l :
  StronglySorted by_priority l -> StronglySorted by_priority (insert_after_le x l).
Proof.
  induction 1 as [|y l Hs IH Hy]; simpl.
  - repeat constructor.
  - destruct (Z.ltb_spec (priority x) (priority y)).
    + constructor; [by constructor|].
      constructor; [unfold by_priority; lia|].
      eapply Forall_impl; [exact Hy|].
      unfold by_priority; simpl; intros; lia.
    + constructor; [done|].
      eapply Permutation_Forall; [symmetry; apply insert_after_le_perm|].
      apply Forall_app; split; [done|].
      constructor; [unfold by_priority; lia | constructor].
Qed.

(** Stability: the new entry goes behind the entries of its own priority,
    and the entries of any other priority are left as they were. *)
Lemma insert_after_le_stable p x l :
  StronglySorted by_priority l ->
  with_priority p (insert_after_le x l) =
  with_priority p l ++ with_priority p [x].
Proof.
  unfold with_priority.
  induction 1 as [|y l Hs IH Hy]; simpl; [done|].
  destruct (Z.ltb_spec (priority x) (priority y)).
  - rewrite (filter_cons _ x), (filter_cons _ y), (filter_cons _ x [] ), filter_nil.
    destruct (decide (priority x = p)) as [Hx|Hx]; [|by rewrite app_nil_r].
    rewrite decide_False by lia.
    assert (filter (fun f => priority f = p) l = []) as ->; [|done].
    clear IH Hs. induction Hy as [|z l Hz _ IHl]; [done|].
    rewrite filter_cons_False; [done | unfold by_priority in Hz; lia].
  - rewrite !(filter_cons _ y), IH. by case_decide.
Qed.

Lemma add_all_snoc cs c s : add_all (cs ++ [c]) s = add c (add_all cs s).
Proof. unfold add_all. by rewrite foldl_app. Qed.

Lemma entries_snoc cs c s :
  entries (cs ++ [c]) s = entries cs s ++ [entry_of c (add_all cs s)].
Proof.
  revert s. induction cs as [|c' cs IH]; intros s; simpl; [done|].
  by rewrite IH.
Qed.

(** After any sequence of calls on a new object the array is the stable
    sort, by priority, of the entries in call order. *)
Lemma add_all_stable_sort cs :
  let l := subscribers (add_all cs empty) in
  StronglySorted by_priority l ∧
  Permutation l (entries cs empty) ∧
  ∀ p, with_priority p l = with_priority p (entries cs empty).
Proof.
  induction cs as [|c cs IH] using rev_ind; simpl.
  - split; [constructor|]. split; [done|]. done.
  - destruct IH as (Hs & Hp & Hst).
    rewrite add_all_snoc, entries_snoc. simpl. rewrite add_entry_insert.
    split; [by apply insert_after_le_sorted|].
    split.
    + rewrite insert_after_le_perm. by apply Permutation_app_tail.
    + intros p. rewrite insert_after_le_stable by done.
      unfold with_priority in *. by rewrite filter_app, Hst.
Qed.

(** ** The loop of [notify] *)

Section NotifyFacts.

Variable body : fnid -> callback.

Lemma run_actions_removes_only b it :
  removes_only b ->
  iterated (run_actions (actions b) it) = iterated it ∧
  subscribers (object (run_actions (actions b) it)) =
    remove_all (removed_by b) (subscribers (object it)).
Proof.
  unfold removes_only, removed_by, run_actions, remove_all.
  generalize (actions b) as l. intros l. revert it.
  induction l as [|a l IH]; intros it Hl; simpl in *; [done|].
  apply andb_prop in Hl as [Ha Hl].
  destruct a as [c|i]; [done|].
  destruct (IH (run_action (ActRemove i) it) Hl) as [H1 H2].
  split; [exact H1 | exact H2].
Qed.

Lemma remove_all_app ids1 ids2 l :
  remove_all (ids1 ++ ids2) l = remove_all ids2 (remove_all ids1 l).
Proof. unfold remove_all. by rewrite foldl_app. Qed.

Lemma elem_of_remove_all ids l f :
  f ∈ remove_all ids l ↔ f ∈ l ∧ id f ∉ ids.
Proof.
  revert l. induction ids as [|i ids IH]; intros l; simpl.
  - split; [intros H; split; [done | apply not_elem_of_nil] | by intros [? _]].
  - rewrite IH. unfold remove_entry. rewrite list_elem_of_filter, not_elem_of_cons.
    tauto.
Qed.

(** When no callback of the iterated array subscribes, the loop walks
    that array as it was when the loop started. *)
Lemma forEach_removes_only n : ∀ k it it' invoked c,
  Forall (fun f => removes_only (body (fn f))) (iterated it) ->
  forEach body n k it = (it', invoked, c) ->
  iterated it' = iterated it ∧
  invoked `prefix_of` take n (drop k (iterated it)) ∧
  (c = Return -> invoked = take n (drop k (iterated it))) ∧
  subscribers (object it') =
    remove_all (removals_of body invoked) (subscribers (object it)).
Proof.
  induction n as [|n IH]; intros k it it' invoked c Hall Hrun; simpl in Hrun.
  - inversion Hrun; subst. by rewrite take_0.
  - destruct (iterated it !! k) as [f|] eqn:Hk.
    2:{ apply lookup_ge_None in Hk.
        destruct (IH _ _ _ _ _ Hall Hrun) as (H1 & H2 & H3 & H4).
        rewrite drop_ge in * by lia. rewrite take_nil in *. done. }
    assert (removes_only (body (fn f))) as Hf.
    { exact (Forall_lookup_1 _ _ _ _ Hall Hk). }
    destruct (run_actions_removes_only _ it Hf) as [Hit Hobj].
    rewrite (drop_S _ _ _ Hk). simpl.
    destruct (ending (body (fn f))).
    + destruct (forEach body n (S k) _) as [[it2 inv2] c2] eqn:Hrec.
      inversion Hrun; subst.
      apply IH in Hrec as (H1 & H2 & H3 & H4); [|by rewrite Hit].
      rewrite Hit in *. split; [done|]. split; [by apply prefix_cons|].
      split; [intros Hc; by rewrite H3|].
      unfold removals_of in *. simpl. rewrite remove_all_app, H4, Hobj. done.
    + inversion Hrun; subst. split; [done|].
      split; [apply prefix_cons, prefix_nil|]. split; [done|].
      unfold removals_of. simpl. by rewrite app_nil_r.
Qed.

(** Whatever the callbacks do: a callback that throws is the last one the
    loop invokes, and the loop ends by throwing exactly then. *)
Lemma forEach_throw n : ∀ k it it' invoked c,
  forEach body n k it = (it', invoked, c) ->
  (∀ pre f post, invoked = pre ++ f :: post ->
     ending (body (fn f)) = Throw -> post = [] ∧ c = Throw) ∧
  (c = Throw ->
     ∃ pre f, invoked = pre ++ [f] ∧ ending (body (fn f)) = Throw).
Proof.
  induction n as [|n IH]; intros k it it' invoked c Hrun; simpl in Hrun.
  - inversion Hrun; subst. split; [|done].
    intros pre f post H. by destruct pre.
  - destruct (iterated it !! k) as [g|] eqn:Hk; [|by eapply IH].
    destruct (ending (body (fn g))) eqn:Hg.
    + destruct (forEach body n (S k) _) as [[it2 inv2] c2] eqn:Hrec.
      inversion Hrun; subst. apply IH in Hrec as [H1 H2]. split.
      * intros [|g' pre] f post Heq Hf; simpl in Heq; inversion Heq; subst.
        { congruence. }
        { eauto. }
      * intros Hc. destruct (H2 Hc) as (pre & f & -> & Hf).
        exists (g :: pre), f. done.
    + inversion Hrun; subst. split.
      * intros [|g' pre] f post Heq Hf; simpl in Heq; inversion Heq; subst; [done|].
        by destruct pre.
      * intros _. exists [], g. done.
Qed.

(** When no callback of the iterated array subscribes, the loop invokes
    the entries of that array in order, up to the first whose callback
    throws, and returns exactly when none does. *)
Lemma forEach_walks n : ∀ k it,
  Forall (fun f => removes_only (body (fn f))) (iterated it) ->
  (forEach body n k it).1.2 = until_throw body (take n (drop k (iterated it))) ∧
  ((forEach body n k it).2 = Return ↔
   Forall (fun f => ending (body (fn f)) = Return) (take n (drop k (iterated it)))).
Proof.
  induction n as [|n IH]; intros k it Hall; simpl.
  - by rewrite take_0.
  - destruct (iterated it !! k) as [f|] eqn:Hk.
    2:{ apply lookup_ge_None in Hk. destruct (IH (S k) it Hall) as [H1 H2].
        rewrite drop_ge in * by lia. rewrite take_nil in *. done. }
    assert (removes_only (body (fn f))) as Hf.
    { exact (Forall_lookup_1 _ _ _ _ Hall Hk). }
    destruct (run_actions_removes_only _ it Hf) as [Hit _].
    rewrite (drop_S _ _ _ Hk). simpl.
    destruct (ending (body (fn f))) eqn:Hend.
    + destruct (IH (S k) (run_actions (actions (body (fn f))) it)) as [H1 H2].
      { by rewrite Hit. }
      rewrite Hit in H1, H2.
      destruct (forEach body n (S k) _) as [[it2 inv2] c2]. simpl in *.
      split; [by rewrite H1|]. rewrite H2. split.
      * intros H. by constructor.
      * intros H. by apply Forall_cons in H as [_ H].
    + simpl. split; [done|]. split; [done|].
      intros H. apply Forall_cons in H as [H _]. congruence.
Qed.

End NotifyFacts.

Lemma notify_removes_only body s :
  Forall (fun f => removes_only (body (fn f))) (subscribers s) ->
  (notify body s).1.2 `prefix_of` subscribers s ∧
  ((notify body s).2 = Return -> (notify body s).1.2 = subscribers s) ∧
  subscribers ((notify body s).1.1) =
    remove_all (removals_of body ((notify body s).1.2)) (subscribers s).
Proof.
  intros Hall. unfold notify.
  destruct (Nat.ltb_spec (length (subscribers s)) 1) as [Hlen|Hlen]; simpl.
  - destruct (subscribers s); [done | simpl in Hlen; lia].
  - destruct (forEach body _ _ _) as [[it inv] c] eqn:Hrun.
    apply forEach_removes_only in Hrun as (H1 & H2 & H3 & H4); [|done].
    simpl in *. rewrite drop_0, firstn_all in *. done.
Qed.

Lemma prefix_with_priority p l1 l2 :
  l1 `prefix_of` l2 -> with_priority p l1 `prefix_of` with_priority p l2.
Proof.
  intros [k ->]. unfold with_priority. rewrite filter_app.
  by apply prefix_app_r.
Qed.

Lemma notify_walks body s :
  Forall (fun f => removes_only (body (fn f))) (subscribers s) ->
  (notify body s).1.2 = until_throw body (subscribers s) ∧
  ((notify body s).2 = Return ↔
   Forall (fun f => ending (body (fn f)) = Return) (subscribers s)).
Proof.
  intros Hall. unfold notify.
  destruct (Nat.ltb_spec (length (subscribers s)) 1) as [Hlen|Hlen]; simpl.
  - destruct (subscribers s); [done | simpl in Hlen; lia].
  - pose proof (forEach_walks body (length (subscribers s)) 0
                  {| iterated := subscribers s; object := s; aliased := true |}
                  Hall) as H.
    destruct (forEach body _ _ _) as [[it inv] c].
    simpl in H. rewrite drop_0, firstn_all in H. exact H.
Qed.

Lemma add_all_then_notify body cs :
  Forall (fun f => removes_only (body (fn f))) (subscribers (add_all cs empty)) ->
  in_priority_order body cs (notify body (add_all cs empty)).1.2
    (notify body (add_all cs empty)).2.
Proof.
  intros Hall.
  destruct (notify_removes_only body _ Hall) as (Hpre & Hall' & _).
  destruct (notify_walks body _ Hall) as [Hinv Hret].
  destruct (add_all_stable_sort cs) as (Hs & Hp & Hst). simpl in *.
  exists (subscribers (add_all cs empty)).
  split; [done|]. split; [done|]. split; [done|]. split; [done|]. split.
  - destruct Hpre as [k Hk]. rewrite Hk in Hs.
    by apply StronglySorted_app_1_l in Hs.
  - intros p. rewrite <- Hst. by apply prefix_with_priority.
Qed.

Lemma scroll_add_all cs sc :
  Scroll.subs (foldl (fun acc c => Scroll.add c acc) sc cs) =
  add_all cs (Scroll.subs sc).
Proof.
  revert sc. induction cs as [|c cs IH]; intros sc; simpl; [done|].
  by rewrite IH.
Qed.

(** C2.  After any sequence of [add(callback, priority)] calls on a new
    [Subscribable], a [notify] (during which no callback subscribes)
    invokes the callbacks in non-decreasing priority order, and those of
    equal priority in the order they were added: it walks the stable sort
    by priority of the entries registered, invokes every one of them and
    returns when no callback throws, and stops at the first callback that
    throws otherwise; the same holds of the subscription list of the
    [Scroll] instance. *)
Theorem notify_invokes_in_priority_order
    (body : fnid -> callback) (cs : list add_call) (position : Q) :
  Forall (fun f => removes_only (body (fn f)))
         (subscribers (add_all cs empty)) ->
  in_priority_order body cs
    (notify body (add_all cs empty)).1.2
    (notify body (add_all cs empty)).2 ∧
  let scroll0 := {| Scroll.scroll := position; Scroll.subs := empty |} in
  let scroll1 := foldl (fun acc c => Scroll.add c acc) scroll0 cs in
  in_priority_order body cs
    (Scroll.notify body scroll1).1.2
    (Scroll.notify body scroll1).2.
Proof.
  intros Hall. split; [by apply add_all_then_notify|].
  simpl. unfold Scroll.notify. rewrite scroll_add_all. simpl.
  pose proof (add_all_then_notify body cs Hall) as H.
  destruct (notify body (add_all cs empty)) as [[o inv] c]. exact H.
Qed.

(** The theorem at the sample calls, callback 2 removing the entry of
    callback 3 during the notification: the four callbacks are invoked,
    in the order of the priorities -1, 0, 5, 5. *)
Lemma notify_invokes_in_priority_order_witness :
  Forall (fun f => removes_only (sample_removing (fn f)))
         (subscribers (add_all sample_calls empty)) ∧
  in_priority_order sample_removing sample_calls
    (notify sample_removing (add_all sample_calls empty)).1.2
    (notify sample_removing (add_all sample_calls empty)).2.
Proof.
  assert (Forall (fun f => removes_only (sample_removing (fn f)))
                 (subscribers (add_all sample_calls empty))) as H.
  { vm_compute. repeat constructor. }
  split; [exact H|].
  exact (proj1 (notify_invokes_in_priority_order sample_removing sample_calls 0 H)).
Defined.

(** The run of the sample in full. *)
Lemma notify_sample_run :
  (notify sample_removing (add_all sample_calls empty)).1.2 =
    [ {| fn := 4; priority := -1; id := UserSym 7 |};
      {| fn := 2; priority := 0; id := Sym 1 |};
      {| fn := 1; priority := 5; id := Sym 0 |};
      {| fn := 3; priority := 5; id := Sym 2 |} ] ∧
  (notify sample_removing (add_all sample_calls empty)).2 = Return.
Proof. split; reflexivity. Qed.

(** The premise of the theorem is needed: a callback that subscribes while
    [notify] runs changes the array under the loop, and an entry of lower
    priority can be invoked after it. *)
Lemma subscribing_during_notify_disturbs_order :
  (notify sample_subscribing
     (add_all [ {| a_fn := 1; a_priority := Some 5; a_id := None |};
                {| a_fn := 2; a_priority := Some 7; a_id := None |} ] empty)).1.2 =
  [ {| fn := 1; priority := 5; id := Sym 0 |};
    {| fn := 4; priority := 1; id := Sym 3 |} ].
Proof. reflexivity. Qed.

Section ThrowAndRemove.

Variable body : fnid -> callback.

Lemma drop_eq_cons {A} (l : list A) k x rest :
  drop k l = x :: rest -> l !! k = Some x ∧ drop (S k) l = rest.
Proof.
  intros H. split.
  - rewrite <- (Nat.add_0_r k), <- lookup_drop, H. done.
  - replace (S k) with (k + 1)%nat by lia. by rewrite <- drop_drop, H.
Qed.

Lemma forEach_until_throw pre : ∀ k it n f post,
  drop k (iterated it) = pre ++ f :: post ->
  Forall (quiet body) pre ->
  ending (body (fn f)) = Throw ->
  (length pre < n)%nat ->
  (forEach body n k it).1.2 = pre ++ [f] ∧ (forEach body n k it).2 = Throw.
Proof.
  induction pre as [|g pre IH]; intros k it n f post Hdrop Hpre Hf Hn;
    (destruct n as [|n]; [simpl in Hn; lia|]);
    simpl in Hdrop; apply drop_eq_cons in Hdrop as [Hk Hrest]; simpl; rewrite Hk.
  - by rewrite Hf.
  - apply Forall_cons in Hpre as [[Hg1 Hg2] Hpre]. rewrite Hg2.
    destruct (run_actions_removes_only _ it Hg1) as [Hit _].
    specialize (IH (S k) (run_actions (actions (body (fn g))) it) n f post).
    rewrite Hit in IH. simpl in Hn.
    destruct IH as [H1 H2]; [done | done | done | lia |].
    destruct (forEach body n (S k) _) as [[it2 inv2] c2]. simpl in *.
    by subst.
Qed.

(** Whatever the callbacks do, nothing is invoked after a callback that
    throws, and [notify] throws. *)
Lemma notify_throw_is_last s pre f post :
  (notify body s).1.2 = pre ++ f :: post ->
  ending (body (fn f)) = Throw ->
  post = [] ∧ (notify body s).2 = Throw.
Proof.
  unfold notify. destruct (length (subscribers s) <? 1)%nat eqn:Hlen; simpl.
  - by destruct pre.
  - destruct (forEach body _ _ _) as [[it inv] c] eqn:Hrun. simpl.
    apply forEach_throw in Hrun as [H _]. apply H.
Qed.

(** C9.  When a subscriber callback throws during [notify], the exception
    reaches the caller of [notify] and no callback is invoked after it in
    that notification, whatever the other callbacks do; when the
    callbacks before it return and subscribe nothing, the invocations are
    those of the subscribers up to the one that threw, and the subscribers
    ordered after it are not invoked. *)
Theorem notify_propagates_throw (s : t) (pre : list sub) (f : sub)
    (post : list sub) :
  ending (body (fn f)) = Throw ->
  ((notify body s).1.2 = pre ++ f :: post ->
   post = [] ∧ (notify body s).2 = Throw) ∧
  (subscribers s = pre ++ f :: post ->
   Forall (quiet body) pre ->
   (notify body s).2 = Throw ∧ (notify body s).1.2 = pre ++ [f]).
Proof.
  intros Hf. split; [intros Hinv; by eapply notify_throw_is_last|].
  intros Hs Hpre. unfold notify. rewrite Hs.
  replace (length (pre ++ f :: post) <? 1)%nat with false
    by (symmetry; apply Nat.ltb_ge; rewrite length_app; simpl; lia).
  edestruct (forEach_until_throw pre 0
               {| iterated := pre ++ f :: post; object := s; aliased := true |}
               (length (pre ++ f :: post)) f post) as [H1 H2];
    [done | done | done | rewrite length_app; simpl; lia |].
  destruct (forEach body _ _ _) as [[it inv] c]. simpl in *. by subst.
Qed.

(** C10, as the code has it.  In a notification that returns, and during
    which no callback subscribes: a subscriber that a callback removes is
    invoked all the same in that notification, every subscriber of the
    array as it was when [notify] started being invoked once and in order;
    the removal shows afterwards: the subscriber is gone from the list and
    the next [notify] does not invoke it. *)
Theorem remove_during_notify_takes_effect_later (s : t) (g r : sub) :
  Forall (fun f => removes_only (body (fn f))) (subscribers s) ->
  (notify body s).2 = Return ->
  g ∈ subscribers s ->
  r ∈ subscribers s ->
  id r ∈ removed_by (body (fn g)) ->
  (notify body s).1.2 = subscribers s ∧
  r ∈ (notify body s).1.2 ∧
  (r ∉ subscribers ((notify body s).1.1)) ∧
  (r ∉ (notify body ((notify body s).1.1)).1.2).
Proof.
  intros Hall Hret Hg Hr Hrem.
  destruct (notify_removes_only body s Hall) as (_ & Hinv & Hsubs).
  specialize (Hinv Hret). rewrite Hinv in *.
  assert (r ∉ subscribers ((notify body s).1.1)) as Hgone.
  { rewrite Hsubs, elem_of_remove_all. intros [_ Hnot]. apply Hnot.
    unfold removals_of. apply list_elem_of_bind. eauto. }
  split; [done|]. split; [done|]. split; [done|].
  intros Hin. apply Hgone.
  eapply elem_of_prefix; [exact Hin|].
  apply notify_removes_only.
  rewrite Hsubs. apply Forall_forall. intros x Hx.
  apply elem_of_remove_all in Hx as [Hx _].
  by apply (proj1 (Forall_forall _ _) Hall).
Qed.

End ThrowAndRemove.

(** The theorem at the sample calls, callback 1 throwing: callbacks 4 and
    2 come before it, callback 3 after. *)
Lemma notify_propagates_throw_witness :
  (notify sample_throwing (add_all sample_calls empty)).2 = Throw ∧
  (notify sample_throwing (add_all sample_calls empty)).1.2 =
    [ {| fn := 4; priority := -1; id := UserSym 7 |};
      {| fn := 2; priority := 0; id := Sym 1 |};
      {| fn := 1; priority := 5; id := Sym 0 |} ].
Proof.
  refine (proj2 (notify_propagates_throw sample_throwing
           (add_all sample_calls empty)
           [ {| fn := 4; priority := -1; id := UserSym 7 |};
             {| fn := 2; priority := 0; id := Sym 1 |} ]
           {| fn := 1; priority := 5; id := Sym 0 |}
           [ {| fn := 3; priority := 5; id := Sym 2 |} ] _) _ _).
  - reflexivity.
  - reflexivity.
  - repeat constructor.
Defined.

(** The theorem at the sample calls, callback 2 removing the entry of
    callback 3, which comes after it. *)
Lemma remove_during_notify_witness :
  let s := add_all sample_calls empty in
  let g := {| fn := 2; priority := 0; id := Sym 1 |} in
  let r := {| fn := 3; priority := 5; id := Sym 2 |} in
  (notify sample_removing s).1.2 = subscribers s ∧
  r ∈ (notify sample_removing s).1.2 ∧
  (r ∉ subscribers ((notify sample_removing s).1.1)) ∧
  (r ∉ (notify sample_removing ((notify sample_removing s).1.1)).1.2).
Proof.
  intros s g r.
  apply (remove_during_notify_takes_effect_later sample_removing s g r).
  - vm_compute. repeat constructor.
  - reflexivity.
  - apply list_elem_of_lookup_2 with 1%nat. reflexivity.
  - apply list_elem_of_lookup_2 with 3%nat. reflexivity.
  - apply list_elem_of_lookup_2 with 0%nat. reflexivity.
Defined.

(** C10, as stated, fails.  [add] changes the array in place, the very
    array that [forEach] walks: when callback 1 subscribes a callback of
    lower priority before it removes the entry of callback 2, the entries
    shift by one under the loop, callback 1 is invoked a second time and
    callback 2, the subscriber removed, is not invoked in that
    notification, which returns.  And when callback 1 throws after the
    removal, the notification ends there, before callback 2. *)
Lemma remove_during_notify_can_skip_removed :
  subscribers sample_pair =
    [ {| fn := 1; priority := 5; id := Sym 0 |};
      {| fn := 2; priority := 7; id := Sym 1 |} ] ∧
  notify sample_subscribing_remover sample_pair =
    ({| subscribers := [ {| fn := 3; priority := 0; id := Sym 2 |};
                         {| fn := 3; priority := 0; id := Sym 3 |};
                         {| fn := 1; priority := 5; id := Sym 0 |} ];
        next_symbol := 4 |},
     [ {| fn := 1; priority := 5; id := Sym 0 |};
       {| fn := 1; priority := 5; id := Sym 0 |} ],
     Return) ∧
  ¬ removal_takes_effect_later sample_subscribing_remover sample_pair ∧
  (notify sample_throwing_remover sample_pair).1.2 =
    [ {| fn := 1; priority := 5; id := Sym 0 |} ] ∧
  ¬ removal_takes_effect_later sample_throwing_remover sample_pair.
Proof.
  assert (∀ body,
            (notify body sample_pair).1.2 `prefix_of`
              [ {| fn := 1; priority := 5; id := Sym 0 |};
                {| fn := 1; priority := 5; id := Sym 0 |} ] ->
            id {| fn := 2; priority := 7; id := Sym 1 |} ∈
              removed_by (body 1%nat) ->
            {| fn := 1; priority := 5; id := Sym 0 |} ∈ (notify body sample_pair).1.2 ->
            ¬ removal_takes_effect_later body sample_pair) as Hno.
  { intros body Hpre Hrem Hg H.
    destruct (H {| fn := 1; priority := 5; id := Sym 0 |}
                {| fn := 2; priority := 7; id := Sym 1 |}) as [Hin _].
    - exact Hg.
    - apply list_elem_of_lookup_2 with 1%nat. reflexivity.
    - exact Hrem.
    - eapply elem_of_prefix in Hin; [|exact Hpre].
      repeat (apply elem_of_cons in Hin as [Hin|Hin]; [discriminate|]).
      by apply elem_of_nil in Hin. }
  split; [reflexivity|]. split; [reflexivity|]. split; [|split; [reflexivity|]].
  - apply Hno.
    + by exists [].
    + apply list_elem_of_lookup_2 with 0%nat. reflexivity.
    + apply list_elem_of_lookup_2 with 0%nat. reflexivity.
  - apply Hno.
    + by exists [ {| fn := 1; priority := 5; id := Sym 0 |} ].
    + apply list_elem_of_lookup_2 with 0%nat. reflexivity.
    + apply list_elem_of_lookup_2 with 0%nat. reflexivity.
Qed.

End SubscribableFacts.

(* ===================================================================== *)
(** * Properties of Resize *)
(* ===================================================================== *)

Module ResizeFacts.

Import Resize.

Section Debounce.

Variable innerWidth innerHeight : nat -> Q.

Lemma update_armed now r :
  timers r = [] ∨ (∃ d, armed d r) ->
  armed (now + debounceDelay) (update now r) ∧
  width (update now r) = width r ∧ height (update now r) = height r.
Proof.
  intros H. unfold armed, update. split; [|done].
  exists (next_timer r). simpl. split; [done|].
  destruct H as [->|(d & i & -> & ->)]; simpl.
  - by destruct (truthy _).
  - unfold clearTimeout. rewrite filter_cons_False; [done|]. simpl. tauto.
Qed.

Lemma advance_early now d r :
  armed d r -> (now < d)%nat ->
  advance innerWidth innerHeight now r = (r, []).
Proof.
  intros (i & _ & Ht) Hlt. unfold advance. rewrite Ht. simpl.
  destruct (Nat.leb_spec d now); [lia | done].
Qed.

Lemma advance_due now d r :
  armed d r -> (d <= now)%nat ->
  (advance innerWidth innerHeight now r).2 =
    if negb (Qeqb (innerWidth d) (width r)) || negb (Qeqb (innerHeight d) (height r))
    then [{| at_time := d; n_width := innerWidth d; n_height := innerHeight d |}]
    else [].
Proof.
  intros (i & _ & Ht) Hle. unfold advance. rewrite Ht. simpl.
  destruct (Nat.leb_spec d now); [|lia].
  unfold timeout_callback. simpl.
  destruct (negb _ || negb _); simpl; done.
Qed.

Lemma last_cons_default (l : list nat) : ∀ a d,
  List.last (a :: l) d = List.last l a.
Proof.
  induction l as [|x l IH]; intros a d; [done|].
  change (List.last (a :: x :: l) d) with (List.last (x :: l) d).
  by rewrite (IH x d), (IH x a).
Qed.

Lemma run_armed events : ∀ prev horizon r,
  armed (prev + debounceDelay) r ->
  burst prev events ->
  (List.last events prev + debounceDelay <= horizon)%nat ->
  (run innerWidth innerHeight events horizon r).2 =
    let at_last := (List.last events prev + debounceDelay)%nat in
    if negb (Qeqb (innerWidth at_last) (width r))
       || negb (Qeqb (innerHeight at_last) (height r))
    then [{| at_time := at_last; n_width := innerWidth at_last;
             n_height := innerHeight at_last |}]
    else [].
Proof.
  induction events as [|now events IH]; intros prev horizon r Harm Hb Hh.
  - simpl in *. by apply advance_due.
  - destruct Hb as (Hle & Hlt & Hb).
    cbn [run]. rewrite (advance_early now _ r Harm Hlt).
    destruct (update_armed now r) as (Harm' & Hw & Hhh); [right; eauto|].
    assert (List.last (now :: events) prev = List.last events now) as Hlast.
    { apply last_cons_default. }
    rewrite Hlast.
    assert (List.last events now + debounceDelay <= horizon)%nat as Hh'
      by (rewrite <- Hlast; exact Hh).
    specialize (IH now horizon (update now r) Harm' Hb Hh').
    destruct (run _ _ events horizon (update now r)) as [r2 out2].
    simpl in *. by rewrite IH.
Qed.

(** C7.  A burst of [resize] events less than 100ms apart, on a [Resize]
    with no timer pending, gives at most one notification: it comes 100ms
    after the last event and carries the width and height the window has
    then; when these are the stored width and height there is none. *)
Theorem resize_burst_notifies_once
    (r : t) (first : nat) (events : list nat) (horizon : nat) :
  timers r = [] ->
  burst first events ->
  (List.last events first + debounceDelay <= horizon)%nat ->
  (run innerWidth innerHeight (first :: events) horizon r).2 =
    let settled := (List.last events first + debounceDelay)%nat in
    if Qeqb (innerWidth settled) (width r) && Qeqb (innerHeight settled) (height r)
    then []
    else [{| at_time := settled; n_width := innerWidth settled;
             n_height := innerHeight settled |}].
Proof.
  intros Hidle Hb Hh. cbn [run].
  unfold advance at 1. rewrite Hidle. cbn [fire].
  destruct (update_armed first r) as (Harm & Hw & Hhh); [by left|].
  pose proof (run_armed events first horizon (update first r) Harm Hb Hh) as H.
  destruct (run _ _ events horizon (update first r)) as [r2 out2].
  simpl in *. rewrite H.
  by destruct (Qeqb _ (width r)), (Qeqb _ (height r)).
Qed.

End Debounce.

(** The theorem for three events at 0, 60 and 110 in the sample window,
    which has changed size by 210: one notification, at 210. *)
Lemma resize_burst_notifies_once_witness :
  (run sample_innerWidth sample_innerHeight [0; 60; 110]%nat 1000 sample_resize).2 =
  [{| at_time := 210; n_width := 1024; n_height := 768 |}].
Proof.
  apply (resize_burst_notifies_once sample_innerWidth sample_innerHeight
           sample_resize 0 [60; 110]%nat 1000).
  - reflexivity.
  - simpl. unfold debounceDelay. lia.
  - simpl. unfold debounceDelay. lia.
Defined.

End ResizeFacts.

(* ===================================================================== *)
(** * Properties of Track *)
(* ===================================================================== *)

Module TrackFacts.

Import Track.
Local Open Scope Q_scope.

Lemma clamp_between lo hi v : lo <= hi -> lo <= clamp lo hi v <= hi.
Proof.
  intros H. unfold clamp.
  destruct (Q.min_spec (Qmax v lo) hi) as [[? ->]|[? ->]];
    destruct (Q.max_spec v lo) as [[? ?]|[? ?]]; lra.
Qed.

Lemma clamp_monotone lo hi v1 v2 :
  v1 <= v2 -> clamp lo hi v1 <= clamp lo hi v2.
Proof.
  intros H. unfold clamp.
  by apply Q.min_le_compat_r, Q.max_le_compat_r.
Qed.

Lemma clamp_below lo hi v : lo <= hi -> v <= lo -> clamp lo hi v == lo.
Proof.
  intros H1 H2. unfold clamp.
  destruct (Q.min_spec (Qmax v lo) hi) as [[? ->]|[? ->]];
    destruct (Q.max_spec v lo) as [[? ?]|[? ?]]; lra.
Qed.

Lemma clamp_above lo hi v : lo <= hi -> hi <= v -> clamp lo hi v == hi.
Proof.
  intros H1 H2. unfold clamp.
  destruct (Q.min_spec (Qmax v lo) hi) as [[? ->]|[? ->]];
    destruct (Q.max_spec v lo) as [[? ?]|[? ?]]; lra.
Qed.

(** What the handler stores is a number between 0 and 1, whatever the
    configured bounds are. *)
Lemma handleScroll_value_unit scroll tr v :
  inView tr = true -> init tr = true ->
  value (handleScroll scroll tr).1 = Some v -> 0 <= v <= 1.
Proof.
  intros Hin Hinit. unfold handleScroll. rewrite Hin, Hinit. simpl.
  destruct (map _ _ _ _ _); simpl; [|done].
  intros [= <-]. apply clamp_between. lra.
Qed.

(** C3, at the sample track: the bounds are [2, 5], the element is in
    view, and the scroll handler stores 1, which is below 2. *)
Theorem track_value_leaves_configured_bounds :
  inView sample_track = true ∧
  value (handleScroll 0 sample_track).1 = Some 1 ∧
  ¬ (bounds0 sample_config <= 1 <= bounds1 sample_config).
Proof.
  split; [reflexivity|]. split; [reflexivity|].
  intros [H _]. revert H. unfold sample_config, bounds0. lra.
Qed.

(** C4.  For an element that spans 100 to 300 of the document, with
    [top = "bottom"], [bottom = "top"], a viewport height of 800 and
    [bounds = [0, 1]], the computed bounds are -700 and 300; the value the
    handler stores is defined at every scroll position, lies between 0
    and 1, is 0 at -700 and below, 1 at 300 and above, and does not
    decrease when the scroll position grows. *)
Theorem track_default_progress (scroll0 : Q) :
  let rect := {| rect_top := 100 - scroll0; rect_bottom := 300 - scroll0 |} in
  let tr := new rect scroll0 800 DEFAULT_CONFIG true in
  cr_top (bounds tr) == -700 ∧
  cr_bottom (bounds tr) == 300 ∧
  ∃ v : Q -> Q,
    (∀ s, value (handleScroll s tr).1 = Some (v s)) ∧
    (∀ s, 0 <= v s <= 1) ∧
    (∀ s, s <= -700 -> v s == 0) ∧
    (∀ s, 300 <= s -> v s == 1) ∧
    (∀ s1 s2, s1 <= s2 -> v s1 <= v s2).
Proof.
  intros rect tr.
  assert (cr_top (bounds tr) == -700) as Htop by (simpl; field).
  assert (cr_bottom (bounds tr) == 300) as Hbot by (simpl; field).
  split; [done|]. split; [done|].
  set (a := cr_top (bounds tr)) in *. set (b := cr_bottom (bounds tr)) in *.
  exists (fun s => clamp 0 1 (0 + (1 - 0) * (s - a) / (b - a))).
  assert (∀ s, 0 + (1 - 0) * (s - a) / (b - a) == (s + 700) * (1 # 1000)) as Hlin.
  { intros s. rewrite Htop, Hbot. field. }
  split; [|split; [|split; [|split]]].
  - intros s. unfold handleScroll, map. fold a b.
    replace (inView tr) with true by reflexivity.
    replace (init tr) with true by reflexivity.
    destruct (Qeq_bool a b) eqn:Hab.
    + apply Qeq_bool_eq in Hab. lra.
    + reflexivity.
  - intros s. apply clamp_between. lra.
  - intros s Hs. apply clamp_below; [lra|]. rewrite Hlin. lra.
  - intros s Hs. apply clamp_above; [lra|]. rewrite Hlin. lra.
  - intros s1 s2 Hs. apply clamp_monotone. rewrite !Hlin. lra.
Qed.

End TrackFacts.

(* ===================================================================== *)
(** * Properties of the lifecycle registries and of the leave phase *)
(* ===================================================================== *)

Module LifecycleFacts.

Import Lifecycle.

Lemma map_call_app w l1 l2 :
  map_call w (l1 ++ l2) =
  match map_call w l1 with
  | (evs1, None) => (evs1, None)
  | (evs1, Some ps1) =>
      ((evs1 ++ (map_call w l2).1), (fun ps2 => ps1 ++ ps2) <$> (map_call w l2).2)
  end.
Proof.
  induction l1 as [|e l1 IH]; simpl.
  - destruct (map_call w l2) as [evs2 [ps2|]]; done.
  - destruct (call_entry w e) as [evs [p|]]; [|done].
    rewrite IH. destruct (map_call w l1) as [evs1 [ps1|]]; simpl; [|done].
    rewrite app_assoc. by destruct (map_call w l2) as [evs2 [ps2|]].
Qed.

(** When every entry returns a promise, the dispatch calls what the
    registry promises and collects one promise per entry. *)
Lemma map_call_returns w l :
  Forall returns_promise l ->
  map_call w l = (expected_calls w l, Some (settlement_of w <$> l)).
Proof.
  unfold expected_calls. induction 1 as [|e l He _ IH]; [done|].
  cbn [map_call]. rewrite IH. rewrite bind_cons, fmap_cons.
  destruct e as [f|el f]; simpl in *.
  - unfold settles_as. by destruct (pf_does f).
  - destruct (isCurrentlyVisible w el); done.
Qed.

Lemma settle_settlements ps : ∀ schedule (S : gset nat),
  settlements_of ps (settle ps schedule S).1.
Proof.
  unfold settlements_of.
  induction schedule as [|i schedule IH]; intros S; simpl; [done|].
  destruct (ps !! i) as [s|] eqn:Hi; [|apply IH].
  case_decide; [apply IH|].
  specialize (IH ({[i]} ∪ S)).
  destruct (settle ps schedule ({[i]} ∪ S)) as [evs done']. simpl in *.
  constructor; [eauto | done].
Qed.

(** A promise that the schedule names settles. *)
Lemma settle_scheduled ps i s : ∀ schedule (S : gset nat),
  ps !! i = Some s -> i ∈ schedule -> i ∉ S ->
  EvSettled i s ∈ (settle ps schedule S).1.
Proof.
  induction schedule as [|j schedule IH]; intros S Hi Hin HS.
  - by apply elem_of_nil in Hin.
  - simpl. destruct (decide (j = i)) as [->|Hne].
    + rewrite Hi, decide_False by done.
      destruct (settle ps schedule ({[i]} ∪ S)) as [evs done']. simpl. by left.
    + apply elem_of_cons in Hin as [Hin|Hin]; [congruence|].
      destruct (ps !! j) as [sj|]; [|by apply IH].
      case_decide; [by apply IH|].
      specialize (IH ({[j]} ∪ S) Hi Hin).
      destruct (settle ps schedule ({[j]} ∪ S)) as [evs done']. simpl in *.
      right. apply IH. set_solver.
Qed.

(** Only the promises that the schedule names settle. *)
Lemma settle_only_scheduled ps : ∀ schedule (S : gset nat),
  (settle ps schedule S).2 ⊆ S ∪ list_to_set schedule ∧
  Forall (fun e => is_Some (settled_index e)) (settle ps schedule S).1.
Proof.
  induction schedule as [|i schedule IH]; intros S; simpl.
  - split; [set_solver | done].
  - destruct (ps !! i) as [s|].
    + case_decide.
      * destruct (IH S) as [H1 H2]. split; [set_solver | done].
      * destruct (IH ({[i]} ∪ S)) as [H1 H2].
        destruct (settle ps schedule ({[i]} ∪ S)) as [evs done']. simpl in *.
        split; [set_solver | by constructor].
    + destruct (IH S) as [H1 H2]. split; [set_solver | done].
Qed.

(** The join does not end while a promise is left out of the schedule. *)
Lemma settle_pending ps schedule i :
  (i < length ps)%nat -> i ∉ schedule ->
  all_settled ps (settle ps schedule ∅).2 = false.
Proof.
  intros Hi Hnot.
  destruct (settle_only_scheduled ps schedule ∅) as [Hsub _].
  destruct (all_settled ps (settle ps schedule ∅).2) eqn:Hall; [|done].
  exfalso. unfold all_settled in Hall.
  pose proof (proj1 (List.forallb_forall _ _) Hall i) as Hin.
  rewrite bool_decide_eq_true in Hin.
  assert (i ∈ (settle ps schedule ∅).2) as Hdone.
  { apply Hin. apply list_elem_of_In, elem_of_seq. lia. }
  apply Hsub in Hdone. set_solver.
Qed.

(** A schedule that names each pending promise once settles them all. *)
Lemma settle_each_once ps : ∀ schedule (S : gset nat),
  NoDup schedule ->
  Forall (fun i => (i < length ps)%nat ∧ i ∉ S) schedule ->
  (settle ps schedule S).2 = list_to_set schedule ∪ S ∧
  omap settled_index (settle ps schedule S).1 = schedule.
Proof.
  induction schedule as [|i schedule IH]; intros S Hnd Hall; simpl.
  - split; [set_solver | done].
  - apply NoDup_cons in Hnd as [Hi Hnd].
    apply Forall_cons in Hall as [[Hlt HiS] Hall].
    destruct (lookup_lt_is_Some_2 ps i Hlt) as [s ->].
    rewrite decide_False by done.
    destruct (IH ({[i]} ∪ S) Hnd) as (H1 & H3).
    { apply Forall_forall. intros j Hj.
      destruct (proj1 (Forall_forall _ _) Hall j Hj) as [? ?].
      split; [done|]. set_solver. }
    destruct (settle ps schedule ({[i]} ∪ S)) as [evs done']. simpl in *.
    split; [set_solver|]. simpl; by f_equal.
Qed.

Lemma settle_permutation ps schedule :
  schedule ≡ₚ seq 0 (length ps) ->
  all_settled ps (settle ps schedule ∅).2 = true ∧
  settles_each_once ps (settle ps schedule ∅).1.
Proof.
  intros Hp.
  destruct (settle_each_once ps schedule ∅) as (H1 & H3).
  { rewrite Hp. apply NoDup_seq. }
  { apply Forall_forall. intros i Hi. rewrite Hp in Hi.
    apply elem_of_seq in Hi. split; [lia | set_solver]. }
  split.
  - unfold all_settled. apply List.forallb_forall. intros i Hi.
    apply bool_decide_eq_true. rewrite H1.
    apply list_elem_of_In in Hi. rewrite <- Hp in Hi. set_solver.
  - split; [apply settle_settlements | by rewrite H3].
Qed.

Lemma forEach_destroy_returns l :
  Forall (fun d => df_throws d = false) l ->
  forEach_destroy l = (destroyed l, false).
Proof.
  unfold destroyed. induction 1 as [|d l Hd _ IH]; simpl; [done|].
  by rewrite Hd, IH.
Qed.

(** X26.  When no call of a registered callback throws (promises may
    reject), and whatever the order in which the promises of the
    [pageOut] callbacks settle: [transitionOut] calls every [pageOut]
    callback, those behind a guard when their element is in view, waits
    until the promise of each has settled, rejected or not, then runs
    every [destroy] callback once in registration order, leaves both
    registries empty and resets the scroll position last; its own promise
    resolves. *)
Theorem transitionOut_joins_then_destroys (schedule : list nat) (w : world) :
  no_throw w ->
  schedule ≡ₚ seq 0 (length (pageOut w)) ->
  leave_phase_completes schedule w.
Proof.
  intros [Hpo Hd] Hsched. unfold leave_phase_completes, transitionOut, runPageOut.
  rewrite (map_call_returns w _ Hpo).
  rewrite <- (length_fmap (settlement_of w)) in Hsched.
  destruct (settle_permutation _ schedule Hsched) as [Hall Hsettled].
  destruct (settle _ schedule ∅) as [settled done'] eqn:Hs. simpl in Hall, Hsettled.
  rewrite Hall. unfold runDestroy. simpl.
  rewrite (forEach_destroy_returns _ Hd). simpl.
  exists settled. rewrite <- app_assoc. repeat split; try done; apply Hsettled.
Qed.

(** C1.  The claim fails on the code at two [destroy] callbacks of which
    the first throws: [transitionOut] runs the first callback and rejects;
    the second [destroy] callback never runs, the [destroy] registry keeps
    its entries and the scroll position is not reset. *)
Theorem transitionOut_destroy_throw_aborts :
  [] ≡ₚ seq 0 (length (pageOut throwing_destroy)) ∧
  transitionOut [] throwing_destroy =
    (throwing_destroy, [EvDestroyed 0], Rejects) ∧
  ¬ leave_phase_completes [] throwing_destroy.
Proof.
  split; [done|]. split; [reflexivity|].
  intros (settled & _ & _ & Hout & _).
  vm_compute in Hout. discriminate.
Qed.

(** A [pageOut] callback that throws before it returns a promise ends
    [transitionOut] the same way: no [destroy] callback runs. *)
Lemma transitionOut_pageOut_throw_aborts :
  transitionOut [] throwing_pageOut = (throwing_pageOut, [EvCalled 0], Rejects).
Proof. reflexivity. Qed.

Lemma Qltb_lt x y : Qltb x y = true ↔ (x < y)%Q.
Proof.
  unfold Qltb. rewrite negb_true_iff. split.
  - intros H. apply Qnot_le_lt. intros Hle.
    apply Qle_bool_iff in Hle. congruence.
  - intros H. destruct (Qle_bool y x) eqn:Hle; [|done].
    apply Qle_bool_iff in Hle. by apply Qlt_not_le in H.
Qed.

Lemma isCurrentlyVisible_spec w el :
  isCurrentlyVisible w el = true ↔
  (rect_top (getBoundingClientRect w el) < Resize_height w ∧
   0 < rect_bottom (getBoundingClientRect w el))%Q.
Proof.
  unfold isCurrentlyVisible. by rewrite andb_true_iff, !Qltb_lt.
Qed.

Lemma isCurrentlyVisible_not w el :
  isCurrentlyVisible w el = false ↔
  (Resize_height w <= rect_top (getBoundingClientRect w el) ∨
   rect_bottom (getBoundingClientRect w el) <= 0)%Q.
Proof.
  rewrite <- not_true_iff_false, isCurrentlyVisible_spec. split.
  - intros H.
    destruct (Qlt_le_dec (rect_top (getBoundingClientRect w el)) (Resize_height w));
      [|by left].
    destruct (Qlt_le_dec 0 (rect_bottom (getBoundingClientRect w el)));
      [|by right].
    by destruct H.
  - intros [H|H] [H1 H2];
      [exact (Qlt_not_le _ _ H1 H) | exact (Qlt_not_le _ _ H2 H)].
Qed.

(** [runPageOut] on a registry whose entries return promises. *)
Lemma runPageOut_returns schedule w :
  Forall returns_promise (pageOut w) ->
  let ps := settlement_of w <$> pageOut w in
  (runPageOut schedule w).1.2 =
    expected_calls w (pageOut w) ++ (settle ps schedule ∅).1 ∧
  (runPageOut schedule w).2 =
    (if all_settled ps (settle ps schedule ∅).2 then Resolves else Pending).
Proof.
  intros Hpo ps. unfold runPageOut. rewrite (map_call_returns w _ Hpo). fold ps.
  destruct (settle ps schedule ∅) as [evs done']. simpl.
  by destruct (all_settled ps done').
Qed.

(** C5.  After [onPageOut(fn, { element })], when [runPageOut] dispatches
    the registry, the callbacks registered before and after returning
    promises: if the bounding rect of the element is then outside the
    viewport (its top at or below the viewport height, or its bottom at or
    above 0), [fn] is not called, nothing is called but the other
    callbacks, and the promise of the wrapper is fulfilled; if the rect
    intersects the viewport, [fn] is called, after the callbacks
    registered before it and before those registered after it, the promise
    of the wrapper settles the way [fn] ends, and [runPageOut] does not
    complete before it has settled. *)
Theorem guarded_pageOut_runs_only_in_view
    (w0 w : world) (f : page_fn) (el : element) (later : list pageOut_entry)
    (schedule : list nat) :
  pageOut w = pageOut (onPageOut f (Some el) w0) ++ later ->
  Forall returns_promise (pageOut w0) ->
  Forall returns_promise later ->
  let rect := getBoundingClientRect w el in
  let index := length (pageOut w0) in
  let before := expected_calls w (pageOut w0) in
  let after := expected_calls w later in
  let promises := fun own =>
    (settlement_of w <$> pageOut w0) ++ [own] ++ (settlement_of w <$> later) in
  ((Resize_height w <= rect_top rect ∨ rect_bottom rect <= 0)%Q ->
   ∃ settled,
     (runPageOut schedule w).1.2 = before ++ after ++ settled ∧
     settlements_of (promises Fulfilled) settled ∧
     (index ∈ schedule -> EvSettled index Fulfilled ∈ settled)) ∧
  ((rect_top rect < Resize_height w ∧ 0 < rect_bottom rect)%Q ->
   ∃ settled,
     (runPageOut schedule w).1.2 =
       before ++ [EvCalled (pf_name f)] ++ after ++ settled ∧
     settlements_of (promises (settles_as f)) settled ∧
     (index ∈ schedule -> EvSettled index (settles_as f) ∈ settled) ∧
     (index ∉ schedule -> (runPageOut schedule w).2 = Pending)).
Proof.
  intros Hreg Hl Hlater rect index before after promises. simpl in Hreg.
  destruct (runPageOut_returns schedule w) as [Hevs Hout].
  { rewrite Hreg. apply Forall_app. split; [|done].
    apply Forall_app. split; [done | by repeat constructor]. }
  simpl in Hevs, Hout. rewrite Hreg in Hevs, Hout.
  unfold expected_calls in Hevs.
  rewrite !bind_app, !fmap_app, <- !app_assoc in Hevs.
  rewrite !fmap_app, <- !app_assoc in Hout.
  cbn [mbind list_bind fmap list_fmap expected_call settlement_of app] in Hevs, Hout.
  fold (expected_calls w (pageOut w0)) (expected_calls w later) in Hevs.
  fold before after in Hevs.
  assert (∀ p, promises p !! index = Some p) as Hidx.
  { intros p. unfold index, promises.
    rewrite lookup_app_r by (rewrite length_fmap; lia).
    by rewrite length_fmap, Nat.sub_diag. }
  split; intros Hvis.
  - apply isCurrentlyVisible_not in Hvis. rewrite Hvis in Hevs, Hout.
    exists (settle (promises Fulfilled) schedule ∅).1.
    split; [exact Hevs|]. split; [apply settle_settlements|].
    intros Hin. apply settle_scheduled; [apply Hidx | done | set_solver].
  - apply isCurrentlyVisible_spec in Hvis. rewrite Hvis in Hevs, Hout.
    exists (settle (promises (settles_as f)) schedule ∅).1.
    split; [exact Hevs|]. split; [apply settle_settlements|]. split.
    + intros Hin. apply settle_scheduled; [apply Hidx | done | set_solver].
    + intros Hnot. rewrite Hout.
      match goal with
      | |- (if ?b then _ else _) = _ =>
          change b with
            (all_settled (promises (settles_as f))
               (settle (promises (settles_as f)) schedule ∅).2)
      end.
      rewrite (settle_pending _ schedule index); [done| |done].
      apply lookup_lt_is_Some. rewrite Hidx. eauto.
Qed.

(** The theorem at the sample registries, the promises settling in the
    order 2, 0, 1: the rejections do not keep the [destroy] callbacks from
    running. *)
Lemma transitionOut_joins_then_destroys_witness :
  leave_phase_completes [2; 0; 1]%nat one_rejects.
Proof.
  apply (transitionOut_joins_then_destroys [2; 0; 1]%nat one_rejects).
  - split; simpl; repeat constructor; discriminate.
  - simpl. change [2; 0; 1]%nat with ([2]%nat ++ [0; 1]%nat).
    apply Permutation_app_comm.
Defined.

(** The run of the sample in full. *)
Lemma transitionOut_sample_run :
  transitionOut [2; 0; 1]%nat one_rejects =
    (Scroll_toTop (set_destroy [] (set_pageOut [] one_rejects)),
     [EvCalled 0; EvCalled 1; EvCalled 2;
      EvSettled 2 Rejected; EvSettled 0 Fulfilled; EvSettled 1 Rejected;
      EvDestroyed 10; EvDestroyed 11; EvScrollToTop],
     Resolves).
Proof. reflexivity. Qed.

(** The theorem at the third callback of the sample registries,
    registered behind the guard of an element that is in view when the
    registry is dispatched, and at a callback registered, between two
    others, behind the guard of an element that then lies below the
    viewport. *)
Lemma guarded_pageOut_runs_only_in_view_witness :
  (∃ settled,
     (runPageOut [2; 0; 1]%nat one_rejects).1.2 =
       [EvCalled 0; EvCalled 1] ++ [EvCalled 2] ++ [] ++ settled ∧
     settlements_of [Fulfilled; Rejected; Rejected] settled ∧
     (2%nat ∈ [2; 0; 1]%nat -> EvSettled 2 Rejected ∈ settled) ∧
     (2%nat ∉ [2; 0; 1]%nat ->
      (runPageOut [2; 0; 1]%nat one_rejects).2 = Pending)) ∧
  (∃ settled,
     (runPageOut [1; 0]%nat guard_between).1.2 =
       [EvCalled 0] ++ [EvCalled 2] ++ settled ∧
     settlements_of [Fulfilled; Fulfilled; Rejected] settled ∧
     (1%nat ∈ [1; 0]%nat -> EvSettled 1 Fulfilled ∈ settled)).
Proof.
  split.
  - refine (proj2 (guarded_pageOut_runs_only_in_view two_registered one_rejects
                     {| pf_name := 2; pf_does := ThrowsSync |} 7%nat []
                     [2; 0; 1]%nat _ _ _) _).
    + reflexivity.
    + repeat constructor; discriminate.
    + constructor.
    + split; simpl; unfold Qlt; simpl; lia.
  - refine (proj1 (guarded_pageOut_runs_only_in_view one_registered
                     guard_between
                     {| pf_name := 1; pf_does := Settles Rejected |} 7%nat
                     [Plain {| pf_name := 2; pf_does := Settles Rejected |}]
                     [1; 0]%nat _ _ _) _).
    + reflexivity.
    + repeat constructor; discriminate.
    + repeat constructor; discriminate.
    + left. simpl. unfold Qle. simpl. lia.
Defined.

(** The run of the second sample in full: callback 1 is not called, its
    promise is fulfilled; the promise of callback 2 has not settled. *)
Lemma guard_between_run :
  runPageOut [1; 0]%nat guard_between =
    (guard_between,
     [EvCalled 0; EvCalled 2; EvSettled 1 Fulfilled; EvSettled 0 Fulfilled],
     Pending).
Proof. reflexivity. Qed.

(** A callback registered behind the guard of an element that lies below
    the viewport when the registry is dispatched: nothing is called. *)
Lemma guarded_pageOut_out_of_view_sample :
  runPageOut [0]%nat guard_out_of_view =
    (set_pageOut [] guard_out_of_view, [EvSettled 0 Fulfilled], Resolves).
Proof. reflexivity. Qed.

End LifecycleFacts.

(* ===================================================================== *)
(** * Properties of createCycles *)
(* ===================================================================== *)

Module CyclesFacts.

Import Cycles.

Section Scan.

Variable modules : gmap string export.

Lemma set_initialized_twice b b' e :
  set_initialized b (set_initialized b' e) = set_initialized b e.
Proof. done. Qed.

Lemma set_initialized_same e :
  set_initialized (_moduleInitialized e) e = e.
Proof. by destruct e. Qed.

(** What a later visit of an element does, by what the first one did:
    the binding is called again exactly when it threw; an element whose
    binding did not throw is passed over, or warned about, as it is. *)
Lemma visit_again clock later e :
  let first := visit modules clock e in
  let again := visit modules later (element_after first) in
  called again = (if binding_threw first then [el_id e] else []) ∧
  (binding_returned first = true ->
   _moduleInitialized (element_after first) = true) ∧
  (binding_threw first = false ->
   item again = Null ∧ element_after again = element_after first).
Proof.
  unfold binding_threw, binding_returned.
  remember (visit modules clock e) as first eqn:Hfirst. unfold visit in Hfirst.
  destruct (_moduleInitialized e) eqn:He.
  { subst first. unfold visit. simpl. by rewrite He. }
  assert (set_initialized false (set_initialized true e) = e) as Hback.
  { by rewrite set_initialized_twice, <- He, set_initialized_same. }
  destruct (modules !! modulePath modules (attributeValue e))
    as [[fn|]|] eqn:Hm.
  - destruct (fn clock (set_initialized true e)) as [v|err] eqn:Hfn;
      subst first; cbn [element_after item called warned].
    + done.
    + rewrite Hback. unfold visit. rewrite He, Hm.
      by destruct (fn later (set_initialized true e)).
  - subst first. cbn [element_after item called warned].
    unfold visit. by rewrite He, Hm.
  - subst first. cbn [element_after item called warned].
    unfold visit. by rewrite He, Hm.
Qed.

Lemma visits_app l1 : ∀ clock l2,
  visits modules clock (l1 ++ l2) =
  visits modules clock l1 ++
  visits modules (clock + length (visits modules clock l1 ≫= called)) l2.
Proof.
  induction l1 as [|e l1 IH]; intros clock l2.
  - simpl. by rewrite Nat.add_0_r.
  - cbn [visits app]. by rewrite IH, bind_cons, length_app, Nat.add_assoc.
Qed.

Lemma createCycles_app clock l1 l2 :
  let first := createCycles modules clock l1 in
  let rest := createCycles modules (clock_after first) l2 in
  createCycles modules clock (l1 ++ l2) =
  {| document := document first ++ document rest;
     returned := returned first ++ returned rest;
     warnings := warnings first ++ warnings rest;
     calls := calls first ++ calls rest;
     clock_after := clock_after rest |}.
Proof.
  unfold createCycles. cbn [document returned warnings calls clock_after].
  rewrite visits_app, !fmap_app, filter_app, !bind_app, length_app.
  by rewrite Nat.add_assoc.
Qed.

Lemma createCycles_single clock e :
  createCycles modules clock [e] =
  {| document := [element_after (visit modules clock e)];
     returned := filter (fun i => i <> Null) [item (visit modules clock e)];
     warnings := warned (visit modules clock e);
     calls := called (visit modules clock e);
     clock_after := clock + length (called (visit modules clock e)) |}.
Proof. unfold createCycles. simpl. by rewrite !app_nil_r. Qed.

Lemma createCycles_cons clock e l :
  let s := visit modules clock e in
  let rest := createCycles modules (clock + length (called s)) l in
  createCycles modules clock (e :: l) =
  {| document := element_after s :: document rest;
     returned := filter (fun i => i <> Null) [item s] ++ returned rest;
     warnings := warned s ++ warnings rest;
     calls := called s ++ calls rest;
     clock_after := clock_after rest |}.
Proof.
  cbv zeta. change (e :: l) with ([e] ++ l).
  rewrite createCycles_app. cbv zeta. by rewrite createCycles_single.
Qed.

Lemma createCycles_one clock e :
  calls (createCycles modules clock [e]) = called (visit modules clock e).
Proof. by rewrite createCycles_single. Qed.

(** The bindings that a later scan calls are those that threw. *)
Lemma rescan_calls dom : ∀ clock later,
  calls (createCycles modules later
           (document (createCycles modules clock dom))) =
  (fun s => el_id (element_after s)) <$>
    filter (fun s => binding_threw s = true) (visits modules clock dom).
Proof.
  induction dom as [|e l IH]; intros clock later; [done|].
  rewrite (createCycles_cons clock e l). cbn [document].
  rewrite createCycles_cons. cbn [calls visits].
  destruct (visit_again clock later e) as (Hc & _). simpl in Hc.
  rewrite IH, Hc, filter_cons.
  destruct (binding_threw (visit modules clock e)) eqn:Hthrew.
  - rewrite decide_True by done. rewrite fmap_cons. simpl. f_equal.
    unfold binding_threw, visit in Hthrew. unfold visit.
    destruct (_moduleInitialized e); [done|].
    destruct (modules !! modulePath modules (attributeValue e)) as [[fn|]|];
      [|done|done].
    by destruct (fn clock (set_initialized true e)).
  - by rewrite decide_False by done.
Qed.

(** C6, as the code has it.  An element whose binding the first scan
    called and which returned carries the marker, and no later scan calls
    a binding for it; the bindings that a second scan over the same
    elements calls are those of the elements whose binding threw during
    the first scan, in document order, and no other. *)
Theorem rescan_retries_only_failed_bindings
    (clock later : nat) (dom : list HTMLElement) :
  let steps := visits modules clock dom in
  let first := createCycles modules clock dom in
  let second := createCycles modules later (document first) in
  calls first = steps ≫= called ∧
  (∀ e s, (e, s) ∈ zip dom steps -> binding_returned s = true ->
          called s = [el_id e] ∧
          _moduleInitialized (element_after s) = true ∧
          ∀ n, called (visit modules n (element_after s)) = []) ∧
  calls second =
    (fun s => el_id (element_after s)) <$>
      filter (fun s => binding_threw s = true) steps.
Proof.
  cbv zeta. split; [done|]. split; [|apply rescan_calls].
  revert clock. induction dom as [|e l IH]; intros clock e' s Hin Hret.
  { by apply elem_of_nil in Hin. }
  cbn [visits zip zip_with] in Hin. apply elem_of_cons in Hin as [Heq|Hin].
  - injection Heq as -> ->.
    destruct (visit_again clock 0 e) as (_ & Hm & _). split; [|split].
    + unfold binding_returned, visit in *.
      destruct (_moduleInitialized e); [done|].
      destruct (modules !! modulePath modules (attributeValue e)) as [[fn|]|];
        [|done|done].
      by destruct (fn clock (set_initialized true e)).
    + by apply Hm.
    + intros n. destruct (visit_again clock n e) as (Hc & _). rewrite Hc.
      unfold binding_returned, binding_threw in *.
      destruct (called (visit modules clock e)), (warned (visit modules clock e));
        done.
  - eapply IH; eauto.
Qed.

(** C8.  When the binding resolved for an element throws, the scan goes
    on and returns: the failure is logged, the element is left without
    the marker, and it adds nothing to the array returned; a later scan
    calls its binding again. *)
Theorem throwing_binding_is_caught_and_rolled_back
    (clock later : nat) (before after : list HTMLElement) (e : HTMLElement)
    (moduleFn : nat -> HTMLElement -> result) (error : string) :
  let first := createCycles modules clock before in
  let rest := createCycles modules (S (clock_after first)) after in
  _moduleInitialized e = false ->
  modules !! modulePath modules (attributeValue e) = Some (DefaultFunction moduleFn) ->
  moduleFn (clock_after first) (set_initialized true e) = Thrown error ->
  let scanned := createCycles modules clock (before ++ e :: after) in
  document scanned = document first ++ e :: document rest ∧
  returned scanned = returned first ++ returned rest ∧
  warnings scanned =
    warnings first ++ FailedToCall (attributeValue e) error :: warnings rest ∧
  calls scanned = calls first ++ el_id e :: calls rest ∧
  calls (createCycles modules (clock_after first) [e]) = [el_id e] ∧
  calls (createCycles modules later
           (document (createCycles modules (clock_after first) [e]))) = [el_id e].
Proof.
  intros first rest He Hm Hfn.
  assert (visit modules (clock_after first) e =
          {| element_after := e; item := Null;
             warned := [FailedToCall (attributeValue e) error];
             called := [el_id e] |}) as Hvisit.
  { unfold visit. rewrite He, Hm, Hfn, set_initialized_twice.
    by rewrite <- He, set_initialized_same. }
  assert (called (visit modules later e) = [el_id e]) as Hlater.
  { unfold visit. rewrite He, Hm.
    by destruct (moduleFn later (set_initialized true e)). }
  cbv zeta. rewrite createCycles_app. cbv zeta. fold first.
  rewrite createCycles_cons. cbv zeta. rewrite Hvisit.
  cbn [document returned warnings calls element_after item warned called length].
  rewrite Nat.add_1_r. fold rest.
  rewrite (filter_cons_False _ Null) by (intros H; by apply H).
  rewrite filter_nil.
  split; [done|]. split; [done|]. split; [done|]. split; [done|].
  rewrite !createCycles_one, Hvisit. split; [done|].
  unfold createCycles at 2. cbn [visits document fmap list_fmap].
  rewrite Hvisit. cbn [element_after]. by rewrite createCycles_one.
Qed.

End Scan.

(** C6, as stated, fails: the binding of the second sample element
    throws in the first scan, the marker is rolled back, and the second
    scan calls that binding again. *)
Lemma rescan_calls_failed_binding_again :
  calls (createCycles sample_modules 0 sample_dom) = [0; 1]%nat ∧
  calls (createCycles sample_modules 2
           (document (createCycles sample_modules 0 sample_dom))) = [1%nat] ∧
  ¬ rescan_skips_every_called_element sample_modules 0 sample_dom.
Proof.
  split; [by vm_compute|]. split; [by vm_compute|].
  intros H.
  destruct (H {| el_id := 1; attributeValue := "boom";
                 _moduleInitialized := false |}) as [Hmarker _].
  - apply list_elem_of_lookup_2 with 1%nat. by vm_compute.
  - apply list_elem_of_lookup_2 with 1%nat. by vm_compute.
  - discriminate Hmarker.
Qed.

(** The rollback makes a retry possible, and a retry can succeed: the
    binding of the sample element throws in the first scan and returns
    its component in the second. *)
Lemma retried_binding_can_succeed :
  let first := createCycles sample_flaky 0 [sample_lazy] in
  let second := createCycles sample_flaky (clock_after first) (document first) in
  returned first = [] ∧
  warnings first = [FailedToCall "late" "not ready"] ∧
  document first = [sample_lazy] ∧
  calls second = [6%nat] ∧
  returned second = [Component 6] ∧
  warnings second = [] ∧
  document second = [set_initialized true sample_lazy].
Proof. by vm_compute. Qed.

(** The theorem at the sample element whose binding throws. *)
Lemma throwing_binding_is_caught_and_rolled_back_witness :
  let e := {| el_id := 1; attributeValue := "boom"; _moduleInitialized := false |} in
  returned (createCycles sample_modules 0 (take 1 sample_dom ++ e :: drop 2 sample_dom)) =
    returned (createCycles sample_modules 0 (take 1 sample_dom)) ++
    returned (createCycles sample_modules 2 (drop 2 sample_dom)) ∧
  calls (createCycles sample_modules 5
           (document (createCycles sample_modules 1 [e]))) = [1%nat].
Proof.
  intros e.
  destruct (throwing_binding_is_caught_and_rolled_back sample_modules
              0 5 (take 1 sample_dom) (drop 2 sample_dom) e
              (fun _ _ => Thrown "boom") "boom") as (_ & H2 & _ & _ & _ & H6).
  - reflexivity.
  - by vm_compute.
  - reflexivity.
  - split; [exact H2 | exact H6].
Defined.

End CyclesFacts.

(* ===================================================================== *)
(** * Histories of a Subscribable: order kept, unsubscribing, subscribing
      from a callback *)
(* ===================================================================== *)

Module SubscribableOpsFacts.

Import Subscribable SubscribableOps.

Lemma remove_entry_sorted i l :
  StronglySorted by_priority l -> StronglySorted by_priority (remove_entry i l).
Proof.
  unfold remove_entry. induction 1 as [|y l Hs IH Hy]; [constructor|].
  rewrite filter_cons. case_decide; [|done].
  constructor; [done|].
  apply Forall_forall. intros z Hz. apply list_elem_of_filter in Hz as [_ Hz].
  by apply (proj1 (Forall_forall _ _) Hy).
Qed.

Lemma run_ops_snoc ops o s : run_ops (ops ++ [o]) s = run_op o (run_ops ops s).
Proof. unfold run_ops. by rewrite foldl_app. Qed.

Lemma run_ops_sorted ops :
  StronglySorted by_priority (subscribers (run_ops ops empty)).
Proof.
  induction ops as [|o ops IH] using rev_ind; [constructor|].
  rewrite run_ops_snoc. destruct o as [c|i]; simpl.
  - rewrite SubscribableFacts.add_entry_insert.
    by apply SubscribableFacts.insert_after_le_sorted.
  - by apply remove_entry_sorted.
Qed.

Lemma filter_swap {A} (P Q : A -> Prop)
    `{!∀ x, Decision (P x), !∀ x, Decision (Q x)} (l : list A) :
  filter P (filter Q l) = filter Q (filter P l).
Proof. rewrite !list_filter_filter. apply list_filter_iff. tauto. Qed.

Lemma stable_sort_of_step o s acc :
  stable_sort_of acc (subscribers s) ->
  stable_sort_of
    match o with
    | OpAdd c => acc ++ [entry_of c s]
    | OpRemove i => remove_entry i acc
    end
    (subscribers (run_op o s)).
Proof.
  intros (Hs & Hp & Hst). destruct o as [c|i]; simpl.
  - rewrite SubscribableFacts.add_entry_insert. split; [|split].
    + by apply SubscribableFacts.insert_after_le_sorted.
    + rewrite SubscribableFacts.insert_after_le_perm.
      by apply Permutation_app_tail.
    + intros p. rewrite SubscribableFacts.insert_after_le_stable by done.
      unfold with_priority in *. by rewrite filter_app, Hst.
  - split; [|split].
    + by apply remove_entry_sorted.
    + unfold remove_entry. by rewrite Hp.
    + intros p. unfold with_priority, remove_entry in *.
      by rewrite filter_swap, Hst, filter_swap.
Qed.

(** X1.  Whatever calls of [add] and [remove] are made on a new object,
    in whatever order, the array holds the entries still subscribed, in
    non-decreasing priority order, and those of equal priority in the
    order they were added. *)
Theorem subscribers_stay_sorted (ops : list op) :
  stable_sort_of (live ops empty []) (subscribers (run_ops ops empty)).
Proof.
  assert (stable_sort_of [] (subscribers empty)) as H0.
  { split; [constructor|]. split; done. }
  unfold run_ops. revert H0.
  generalize (@nil sub) as acc. generalize empty as s.
  induction ops as [|o ops IH]; intros s acc Hacc; [done|].
  simpl. apply IH. by apply stable_sort_of_step.
Qed.

(** The symbols of the default parameter are made in increasing order. *)
Lemma run_ops_symbols_below ops :
  Forall caller_op ops -> symbols_below (run_ops ops empty).
Proof.
  unfold symbols_below.
  induction ops as [|o ops IH] using rev_ind; intros Hops; [constructor|].
  apply Forall_app in Hops as [Hops Ho]. apply Forall_cons in Ho as [Ho _].
  specialize (IH Hops). rewrite run_ops_snoc.
  destruct o as [c|i]; simpl in *.
  - rewrite SubscribableFacts.add_entry_insert.
    eapply Permutation_Forall;
      [symmetry; apply SubscribableFacts.insert_after_le_perm|].
    apply Forall_app. split.
    + eapply Forall_impl; [exact IH|]. simpl. intros f Hf n Hn.
      specialize (Hf n Hn). destruct (a_id c); lia.
    + constructor; [|constructor]. unfold entry_of. simpl. intros n Hn.
      destruct (a_id c) as [[m|m]|]; simpl in *; [done | done |].
      inversion Hn; subst. lia.
  - unfold remove_entry. apply Forall_forall. intros f Hf.
    apply list_elem_of_filter in Hf as [_ Hf].
    by apply (proj1 (Forall_forall _ _) IH).
Qed.

Lemma remove_entry_insert_same x l :
  remove_entry (id x) (insert_after_le x l) = remove_entry (id x) l.
Proof.
  unfold remove_entry. induction l as [|y l IH]; simpl.
  - rewrite filter_cons_False; [done | by intros H].
  - destruct (priority x <? priority y).
    + rewrite filter_cons_False; [done | by intros H].
    + by rewrite !(filter_cons _ y), IH.
Qed.

Lemma remove_entry_absent i l :
  Forall (fun f => id f <> i) l -> remove_entry i l = l.
Proof.
  unfold remove_entry. induction 1 as [|y l Hy _ IH]; [done|].
  by rewrite filter_cons_True, IH.
Qed.

(** X2.  On an object reached from a new one by calls that pass symbols
    of their own, a call of [add] that leaves the [id] to the default
    parameter, followed by a call of the function it returned, leaves the
    array of subscribers exactly as it was before the [add]. *)
Theorem unsubscribe_undoes_add (ops : list op) (c : add_call) :
  Forall caller_op ops ->
  a_id c = None ->
  let s := run_ops ops empty in
  subscribers (unsubscribe c s (add c s)) = subscribers s.
Proof.
  intros Hops Hc s. unfold unsubscribe, remove, add. cbn [subscribers].
  rewrite SubscribableFacts.add_entry_insert, remove_entry_insert_same.
  apply remove_entry_absent.
  pose proof (run_ops_symbols_below ops Hops) as Hbelow. fold s in Hbelow.
  eapply Forall_impl; [exact Hbelow|]. simpl. intros f Hf Heq.
  unfold entry_of in Heq. rewrite Hc in Heq. simpl in Heq.
  specialize (Hf _ Heq). lia.
Qed.

Lemma unsubscribe_undoes_add_witness :
  subscribers
    (unsubscribe {| a_fn := 4; a_priority := Some 2; a_id := None |}
       (run_ops sample_ops empty)
       (add {| a_fn := 4; a_priority := Some 2; a_id := None |}
            (run_ops sample_ops empty))) =
  subscribers (run_ops sample_ops empty).
Proof.
  apply (unsubscribe_undoes_add sample_ops
           {| a_fn := 4; a_priority := Some 2; a_id := None |}).
  - repeat constructor.
  - reflexivity.
Defined.

Lemma insert_after_le_above x l :
  Forall (fun z => priority x < priority z) l -> insert_after_le x l = x :: l.
Proof.
  destruct 1 as [|z l Hz _]; simpl; [done|].
  by rewrite (proj2 (Z.ltb_lt _ _) Hz).
Qed.

Lemma filter_insert_after_le (P : sub -> Prop) `{∀ f, Decision (P f)} x l :
  StronglySorted by_priority l -> P x ->
  filter P (insert_after_le x l) = insert_after_le x (filter P l).
Proof.
  intros Hs Hx. induction Hs as [|y l Hs IH Hy]; simpl.
  - by rewrite filter_cons_True.
  - destruct (Z.ltb_spec (priority x) (priority y)) as [Hlt|Hge].
    + rewrite filter_cons_True by done.
      rewrite insert_after_le_above; [done|].
      apply Forall_forall. intros z Hz. apply list_elem_of_filter in Hz as [_ Hz].
      apply elem_of_cons in Hz as [->|Hz]; [done|].
      apply (proj1 (Forall_forall _ _) Hy) in Hz. unfold by_priority in Hz. lia.
    + rewrite !(filter_cons _ y). case_decide.
      * simpl. rewrite (proj2 (Z.ltb_ge _ _) Hge). by rewrite IH.
      * done.
Qed.

(** X3.  On an object reached from a new one, a call of [add] and a call
    of [remove] for another symbol than the one [add] registers can be
    made in either order: the array of subscribers is the same. *)
Theorem add_remove_commute (ops : list op) (c : add_call) (i : symbol) :
  let s := run_ops ops empty in
  id (entry_of c s) <> i ->
  subscribers (remove i (add c s)) = subscribers (add c (remove i s)).
Proof.
  intros s Hne. unfold remove, add. cbn [subscribers next_symbol].
  change (entry_of c {| subscribers := remove_entry i (subscribers s);
                        next_symbol := next_symbol s |}) with (entry_of c s).
  rewrite !SubscribableFacts.add_entry_insert. unfold remove_entry.
  rewrite filter_insert_after_le; [done | apply run_ops_sorted | done].
Qed.

Lemma add_remove_commute_witness :
  subscribers
    (remove (UserSym 7)
       (add {| a_fn := 4; a_priority := Some 2; a_id := None |}
            (run_ops sample_ops empty))) =
  subscribers
    (add {| a_fn := 4; a_priority := Some 2; a_id := None |}
         (remove (UserSym 7) (run_ops sample_ops empty))).
Proof.
  apply (add_remove_commute sample_ops
           {| a_fn := 4; a_priority := Some 2; a_id := None |} (UserSym 7)).
  discriminate.
Defined.

Lemma insert_after_le_behind m x L E :
  Forall (fun f => priority f <= m) L ->
  m <= priority x ->
  insert_after_le x (L ++ E) = L ++ insert_after_le x E.
Proof.
  intros HL Hx. induction HL as [|y l Hy _ IH]; simpl; [done|].
  destruct (Z.ltb_spec (priority x) (priority y)); [lia|]. by rewrite IH.
Qed.

Section LateSubscribers.

Variable body : fnid -> callback.
Variable m : Z.
Variable L : list sub.
Hypothesis L_below : Forall (fun f => priority f <= m) L.

Lemma run_actions_late acts : ∀ it extra,
  forallb (is_late_add m) acts = true ->
  grown m L it extra ->
  grown m L (run_actions acts it) (extra + length acts).
Proof using L_below.
  unfold run_actions.
  induction acts as [|a acts IH]; intros it extra Hacts Hit; simpl in *.
  - by rewrite Nat.add_0_r.
  - apply andb_prop in Hacts as [Ha Hacts].
    destruct a as [c|i]; [|done]. simpl in Ha. apply Z.leb_le in Ha.
    replace (extra + S (length acts))%nat with (S extra + length acts)%nat by lia.
    apply IH; [done|].
    destruct Hit as (E & HE & Hlen & Hhigh & Hal & Hobj).
    exists (insert_after_le (entry_of c (object it)) E).
    simpl. rewrite Hal, Hobj, HE, SubscribableFacts.add_entry_insert.
    rewrite (insert_after_le_behind m) by done.
    split; [done|]. split.
    { rewrite (Permutation_length (SubscribableFacts.insert_after_le_perm _ _)).
      rewrite length_app. simpl. lia. }
    split; [|done].
    eapply Permutation_Forall;
      [symmetry; apply SubscribableFacts.insert_after_le_perm|].
    apply Forall_app. split; [done|]. by repeat constructor.
Qed.

Lemma forEach_late n : ∀ k it extra,
  Forall (fun f => subscribes_late m (body (fn f))) L ->
  grown m L it extra ->
  (n + k <= length L)%nat ->
  ∃ it' extra',
    forEach body n k it = (it', take n (drop k L), Return) ∧
    grown m L it' extra' ∧
    extra' = (extra + length (take n (drop k L) ≫= fun f => actions (body (fn f))))%nat.
Proof using L_below.
  induction n as [|n IH]; intros k it extra Hall Hit Hk.
  - exists it, extra. simpl. rewrite take_0. simpl. by rewrite Nat.add_0_r.
  - destruct (lookup_lt_is_Some_2 L k) as [f Hf]; [lia|].
    assert (iterated it !! k = Some f) as Hf'.
    { destruct Hit as (E & -> & _). by apply lookup_app_l_Some. }
    destruct (Forall_lookup_1 _ _ _ _ Hall Hf) as [Hlate Hret].
    pose proof (run_actions_late _ it extra Hlate Hit) as Hit'.
    destruct (IH (S k) _ _ Hall Hit') as (it2 & extra2 & Hrun & Hit2 & ->); [lia|].
    exists it2, (extra + length (actions (body (fn f))) +
                 length (take n (drop (S k) L) ≫= fun f => actions (body (fn f))))%nat.
    simpl. rewrite Hf', Hret, Hrun, (drop_S _ _ _ Hf). simpl.
    split; [done|]. split; [done|]. rewrite length_app.
    by rewrite Nat.add_assoc.
Qed.

End LateSubscribers.

(** X4.  When every callback returns and subscribes, while it runs, only
    callbacks whose priority is at least that of every subscriber, [notify]
    invokes the subscribers it started with, each once and in order, and
    none of the callbacks subscribed meanwhile: these are behind them in
    the array afterwards. *)
Theorem late_subscribers_wait_for_next_notify
    (body : fnid -> callback) (m : Z) (s : t) :
  Forall (fun f => priority f <= m) (subscribers s) ->
  Forall (fun f => subscribes_late m (body (fn f))) (subscribers s) ->
  (notify body s).1.2 = subscribers s ∧
  (notify body s).2 = Return ∧
  subscribers s `prefix_of` subscribers ((notify body s).1.1) ∧
  length (subscribers ((notify body s).1.1)) =
    (length (subscribers s) +
     length (subscribers s ≫= fun f => actions (body (fn f))))%nat.
Proof.
  intros Hbelow Hlate. unfold notify.
  destruct (Nat.ltb_spec (length (subscribers s)) 1) as [Hlen|Hlen]; simpl.
  { destruct (subscribers s); [|simpl in Hlen; lia].
    repeat split; done. }
  destruct (forEach_late body m (subscribers s) Hbelow (length (subscribers s)) 0
              {| iterated := subscribers s; object := s; aliased := true |} 0)
    as (it' & extra' & Hrun & (E & HE & HlenE & _ & _ & Hobj) & ->).
  - done.
  - exists []. by rewrite app_nil_r.
  - lia.
  - rewrite Hrun. simpl. rewrite drop_0, firstn_all in *.
    rewrite Hobj, HE. repeat split; [by exists E|].
    rewrite length_app. lia.
Qed.

Lemma late_subscribers_wait_for_next_notify_witness :
  (notify sample_late (add_all sample_calls empty)).1.2 =
    subscribers (add_all sample_calls empty) ∧
  length (subscribers ((notify sample_late (add_all sample_calls empty)).1.1)) = 5%nat.
Proof.
  destruct (late_subscribers_wait_for_next_notify sample_late 5
              (add_all sample_calls empty)) as (H1 & _ & _ & H4).
  - vm_compute. repeat constructor; discriminate.
  - vm_compute. repeat constructor.
  - split; [exact H1 | exact H4].
Defined.

End SubscribableOpsFacts.

(* ===================================================================== *)
(** * Runs of the Resize debounce *)
(* ===================================================================== *)

Module ResizeRunsFacts.

Import Resize ResizeRuns.

Lemma no_repeat_app w h l1 l2 :
  no_repeat w h l1 ->
  no_repeat (last_size w h l1).1 (last_size w h l1).2 l2 ->
  no_repeat w h (l1 ++ l2).
Proof.
  revert w h. induction l1 as [|n l1 IH]; intros w h H1 H2; simpl in *; [done|].
  destruct H1 as [Hn H1]. split; [done|]. by apply IH.
Qed.

Lemma last_size_app w h l1 l2 :
  last_size w h (l1 ++ l2) =
  last_size (last_size w h l1).1 (last_size w h l1).2 l2.
Proof.
  revert w h. induction l1 as [|n l1 IH]; intros w h; simpl; [done|]. apply IH.
Qed.

Section Runs.

Variable innerWidth innerHeight : nat -> Q.

Lemma timeout_callback_tracks now r :
  tracks r (timeout_callback innerWidth innerHeight now r).
Proof.
  unfold tracks, timeout_callback, Qeqb.
  destruct (Qeq_bool (innerWidth now) (width r)) eqn:Hw;
    destruct (Qeq_bool (innerHeight now) (height r)) eqn:Hh; simpl;
    try done; (split; [|done]); (split; [|done]); intros [H1 H2].
  - apply Qeq_bool_neq in Hh. done.
  - apply Qeq_bool_neq in Hw. done.
  - apply Qeq_bool_neq in Hw. done.
Qed.

Lemma tracks_then r res1 res2 :
  tracks r res1 -> tracks res1.1 res2 ->
  tracks r (res2.1, res1.2 ++ res2.2).
Proof.
  unfold tracks. intros [H1 H1'] [H2 H2']. simpl.
  rewrite last_size_app, <- H1'. simpl. split; [|done].
  apply no_repeat_app; [done|]. by rewrite <- H1'.
Qed.

Lemma fire_tracks now pending : ∀ r,
  tracks r (fire innerWidth innerHeight now pending r).
Proof.
  induction pending as [|tm pending IH]; intros r; simpl; [done|].
  destruct (due tm <=? now)%nat; [|apply IH].
  set (r1 := {| width := width r; height := height r; timeoutId := timeoutId r;
                timers := clearTimeout (timer_id tm) (timers r);
                next_timer := next_timer r |}).
  pose proof (timeout_callback_tracks (due tm) r1) as H1.
  destruct (timeout_callback innerWidth innerHeight (due tm) r1) as [r2 out1].
  pose proof (IH r2) as H2.
  destruct (fire innerWidth innerHeight now pending r2) as [r3 out2].
  exact (tracks_then r (r2, out1) (r3, out2) H1 H2).
Qed.

Lemma run_tracks events horizon : ∀ r,
  tracks r (run innerWidth innerHeight events horizon r).
Proof.
  induction events as [|now events IH]; intros r; simpl; [apply fire_tracks|].
  pose proof (fire_tracks now (timers r) r) as H1. unfold advance.
  destruct (fire innerWidth innerHeight now (timers r) r) as [r1 out1].
  pose proof (IH (update now r1)) as H2.
  destruct (run innerWidth innerHeight events horizon (update now r1)) as [r2 out2].
  exact (tracks_then r (r1, out1) (r2, out2) H1 H2).
Qed.

(** X5.  However the [resize] events come, and whatever the window does:
    no notification announces the size that the subscribers were told
    last (or, for the first one, the size stored before the run), and
    after the run the stored width and height are those announced last. *)
Theorem resize_never_repeats_a_size (events : list nat) (horizon : nat) (r : t) :
  no_repeat (width r) (height r)
    (run innerWidth innerHeight events horizon r).2 ∧
  (width (run innerWidth innerHeight events horizon r).1,
   height (run innerWidth innerHeight events horizon r).1) =
    last_size (width r) (height r)
      (run innerWidth innerHeight events horizon r).2.
Proof.
  pose proof (run_tracks events horizon r) as [H1 H2].
  split; [exact H1 | exact H2].
Qed.

Lemma fire_at_most_one now r :
  at_most_one r -> at_most_one (advance innerWidth innerHeight now r).1.
Proof.
  intros [Hidle|(d & i & Hid & Ht)]; unfold advance.
  - rewrite Hidle. simpl. by left.
  - rewrite Ht. simpl. destruct (d <=? now)%nat; simpl.
    + left. rewrite Ht. unfold clearTimeout, timeout_callback.
      rewrite filter_cons_False by (simpl; tauto).
      by destruct (negb _ || negb _).
    + right. exists d, i. done.
Qed.

Lemma run_at_most_one events horizon : ∀ r,
  at_most_one r -> at_most_one (run innerWidth innerHeight events horizon r).1.
Proof.
  induction events as [|now events IH]; intros r Hr; simpl.
  - by apply fire_at_most_one.
  - pose proof (fire_at_most_one now r Hr) as H1.
    destruct (advance innerWidth innerHeight now r) as [r1 out1]. simpl in H1.
    assert (at_most_one (update now r1)) as H2.
    { right. eexists. by apply ResizeFacts.update_armed. }
    specialize (IH _ H2).
    by destruct (run innerWidth innerHeight events horizon (update now r1)).
Qed.

(** X6.  From a state with at most one timer pending, however the
    [resize] events come, at most one timer is pending after the run: a
    call of [update] always clears the timer set by the call before. *)
Theorem resize_keeps_one_timer (events : list nat) (horizon : nat) (r : t) :
  at_most_one r ->
  at_most_one (run innerWidth innerHeight events horizon r).1 ∧
  (length (timers (run innerWidth innerHeight events horizon r).1) <= 1)%nat.
Proof.
  intros Hr. pose proof (run_at_most_one events horizon r Hr) as H.
  split; [done|].
  destruct H as [->|(d & i & _ & ->)]; simpl; lia.
Qed.

End Runs.

Lemma resize_keeps_one_timer_witness :
  (length (timers (run sample_flicker_width sample_flicker_height
                     [0; 30; 250; 260; 900]%nat 950 sample_resize).1) <= 1)%nat.
Proof.
  apply (resize_keeps_one_timer sample_flicker_width sample_flicker_height
           [0; 30; 250; 260; 900]%nat 950 sample_resize).
  by left.
Defined.

End ResizeRunsFacts.

(* ===================================================================== *)
(** * The bounds of a Track *)
(* ===================================================================== *)

Module TrackBoundsFacts.

Import Track TrackBounds.
Local Open Scope Q_scope.

(** X7.  The bounds are offsets in the document: measured with the page
    scrolled to one position or to another, they are the same. *)
Theorem computeBounds_ignores_scroll
    (doc_top doc_bottom scroll1 scroll2 resize_height : Q) (c : config) :
  let b1 := computeBounds (rect_at doc_top doc_bottom scroll1) scroll1
              resize_height c in
  let b2 := computeBounds (rect_at doc_top doc_bottom scroll2) scroll2
              resize_height c in
  cr_top b1 == cr_top b2 ∧ cr_bottom b1 == cr_bottom b2 ∧ wh b1 = wh b2.
Proof.
  simpl. destruct (top c), (bottom c); repeat split; ring.
Qed.

(** X8.  With the default trigger points ([top = "bottom"],
    [bottom = "top"]), a viewport of positive height and an element whose
    bottom is not above its top, the upper bound lies strictly below the
    lower one, at a distance of the element height plus the viewport
    height: the interval that the scroll position is mapped from is never
    empty. *)
Theorem default_bounds_never_degenerate
    (rect : DOMRect) (scroll resize_height : Q) (c : config) :
  top c = BottomEdge -> bottom c = TopEdge ->
  0 < resize_height ->
  rect_top rect <= rect_bottom rect ->
  let b := computeBounds rect scroll resize_height c in
  cr_bottom b - cr_top b == (rect_bottom rect - rect_top rect) + resize_height ∧
  cr_top b < cr_bottom b.
Proof.
  intros Ht Hb Hwh Hrect. simpl. rewrite Ht, Hb. split; [ring | lra].
Qed.

Lemma default_bounds_never_degenerate_witness :
  cr_top (computeBounds sample_rect 0 800 DEFAULT_CONFIG) <
  cr_bottom (computeBounds sample_rect 0 800 DEFAULT_CONFIG).
Proof.
  refine (proj2 (default_bounds_never_degenerate sample_rect 0 800
                   DEFAULT_CONFIG _ _ _ _)).
  - reflexivity.
  - reflexivity.
  - reflexivity.
  - unfold Qle. simpl. lia.
Defined.

(** X9.  With [top = "top"] and [bottom = "bottom"] the interval runs
    backwards for every element shorter than the viewport, and it is
    empty for an element exactly as tall as the viewport. *)
Theorem top_to_bottom_bounds_reverse
    (rect : DOMRect) (scroll resize_height : Q) (c : config) :
  top c = TopEdge -> bottom c = BottomEdge ->
  let b := computeBounds rect scroll resize_height c in
  (rect_bottom rect - rect_top rect < resize_height -> cr_bottom b < cr_top b) ∧
  (rect_bottom rect - rect_top rect == resize_height -> cr_bottom b == cr_top b).
Proof.
  intros Ht Hb. simpl. rewrite Ht, Hb. split; intros H; lra.
Qed.

Lemma top_to_bottom_bounds_reverse_witness :
  cr_bottom (computeBounds sample_rect 0 800
               {| bounds0 := 0; bounds1 := 1; top := TopEdge; bottom := BottomEdge |}) <
  cr_top (computeBounds sample_rect 0 800
            {| bounds0 := 0; bounds1 := 1; top := TopEdge; bottom := BottomEdge |}).
Proof.
  refine (proj1 (top_to_bottom_bounds_reverse sample_rect 0 800
                   {| bounds0 := 0; bounds1 := 1; top := TopEdge;
                      bottom := BottomEdge |} _ _) _).
  - reflexivity.
  - reflexivity.
  - reflexivity.
Defined.

End TrackBoundsFacts.

(* ===================================================================== *)
(** * The leave phase when a callback throws or a promise stays pending *)
(* ===================================================================== *)

Module TransitionFacts.

Import Lifecycle.

Lemma forEach_destroy_throws pre d post :
  Forall (fun f => df_throws f = false) pre ->
  df_throws d = true ->
  forEach_destroy (pre ++ d :: post) = (destroyed (pre ++ [d]), true).
Proof.
  unfold destroyed. induction 1 as [|f pre Hf _ IH]; intros Hd; simpl.
  - by rewrite Hd.
  - by rewrite Hf, IH.
Qed.

(** X10.  When a [destroy] callback throws, the leave phase stops there:
    every [pageOut] callback was called and its promise has settled, the
    [destroy] callbacks up to the one that throws have run, those
    registered after it do not run, the [destroy] registry keeps all its
    entries while the [pageOut] registry is already empty, the scroll
    position is not reset and [transitionOut] rejects. *)
Theorem destroy_throw_stops_leave
    (schedule : list nat) (w : world)
    (pre : list destroy_fn) (d : destroy_fn) (post : list destroy_fn) :
  Forall returns_promise (pageOut w) ->
  schedule ≡ₚ seq 0 (length (pageOut w)) ->
  destroy w = pre ++ d :: post ->
  Forall (fun f => df_throws f = false) pre ->
  df_throws d = true ->
  ∃ settled,
    transitionOut schedule w =
      (set_pageOut [] w,
       expected_calls w (pageOut w) ++ settled ++ destroyed (pre ++ [d]),
       Rejects) ∧
    settles_each_once (settlement_of w <$> pageOut w) settled.
Proof.
  intros Hpo Hsched Hdestroy Hpre Hd.
  unfold transitionOut, runPageOut.
  rewrite (LifecycleFacts.map_call_returns w _ Hpo).
  rewrite <- (length_fmap (settlement_of w)) in Hsched.
  destruct (LifecycleFacts.settle_permutation _ schedule Hsched) as [Hall Hsettled].
  destruct (settle _ schedule ∅) as [settled done'] eqn:Hs.
  simpl in Hall, Hsettled. rewrite Hall. unfold runDestroy.
  assert (forEach_destroy (destroy (set_pageOut [] w)) =
          (destroyed (pre ++ [d]), true)) as ->.
  { simpl. rewrite Hdestroy. by apply forEach_destroy_throws. }
  exists settled. by rewrite <- app_assoc.
Qed.

Lemma destroy_throw_stops_leave_witness :
  ∃ settled,
    transitionOut [] throwing_destroy =
      (set_pageOut [] throwing_destroy,
       expected_calls throwing_destroy [] ++ settled ++
       destroyed ([] ++ [{| df_name := 0; df_throws := true |}]),
       Rejects) ∧
    settles_each_once (settlement_of throwing_destroy <$> []) settled.
Proof.
  apply (destroy_throw_stops_leave [] throwing_destroy []
           {| df_name := 0; df_throws := true |}
           [{| df_name := 1; df_throws := false |}]).
  - constructor.
  - reflexivity.
  - reflexivity.
  - constructor.
  - reflexivity.
Defined.

(** X11.  As long as the promise of one [pageOut] callback has not
    settled, nothing of what follows the join happens: every [pageOut]
    callback was called and the promises that the schedule names have
    settled, but no [destroy] callback runs, the scroll position is not
    reset, neither registry is truncated, and the promise of
    [transitionOut] stays pending. *)
Theorem pending_promise_blocks_leave
    (schedule : list nat) (w : world) (i : nat) :
  Forall returns_promise (pageOut w) ->
  (i < length (pageOut w))%nat ->
  i ∉ schedule ->
  ∃ settled,
    transitionOut schedule w =
      (w, expected_calls w (pageOut w) ++ settled, Pending) ∧
    settlements_of (settlement_of w <$> pageOut w) settled ∧
    (∀ j s, j ∈ schedule -> (settlement_of w <$> pageOut w) !! j = Some s ->
            EvSettled j s ∈ settled).
Proof.
  intros Hpo Hi Hnot. unfold transitionOut, runPageOut.
  rewrite (LifecycleFacts.map_call_returns w _ Hpo).
  pose proof (LifecycleFacts.settle_pending (settlement_of w <$> pageOut w)
                schedule i) as Hpend.
  pose proof (LifecycleFacts.settle_settlements (settlement_of w <$> pageOut w)
                schedule ∅) as Hsettled.
  pose proof (fun j s => LifecycleFacts.settle_scheduled
                (settlement_of w <$> pageOut w) j s schedule ∅) as Hnamed.
  destruct (settle _ schedule ∅) as [settled done'] eqn:Hs. simpl in *.
  rewrite Hpend; [|by rewrite length_fmap | done].
  exists settled. split; [done|]. split; [done|].
  intros j s Hj Hlook. apply Hnamed; [done | done | set_solver].
Qed.

Lemma pending_promise_blocks_leave_witness :
  ∃ settled,
    transitionOut [0; 2]%nat one_rejects =
      (one_rejects, expected_calls one_rejects (pageOut one_rejects) ++ settled,
       Pending) ∧
    settlements_of (settlement_of one_rejects <$> pageOut one_rejects) settled ∧
    (∀ j s, j ∈ [0; 2]%nat ->
            (settlement_of one_rejects <$> pageOut one_rejects) !! j = Some s ->
            EvSettled j s ∈ settled).
Proof.
  apply (pending_promise_blocks_leave [0; 2]%nat one_rejects 1).
  - repeat constructor; discriminate.
  - simpl. lia.
  - intros H. repeat (apply elem_of_cons in H as [H|H]; [discriminate|]).
    by apply elem_of_nil in H.
Defined.

(** The two runs in full. *)
Lemma leave_sample_runs :
  transitionOut [] throwing_destroy =
    (throwing_destroy, [EvDestroyed 0], Rejects) ∧
  transitionOut [0; 2]%nat one_rejects =
    (one_rejects,
     [EvCalled 0; EvCalled 1; EvCalled 2;
      EvSettled 0 Fulfilled; EvSettled 2 Rejected],
     Pending).
Proof. split; reflexivity. Qed.

Lemma settle_nothing schedule : ∀ S : gset nat, settle [] schedule S = ([], S).
Proof. induction schedule as [|i schedule IH]; intros S; simpl; [done | apply IH]. Qed.

(** X12.  The registries are used once: after a leave phase that
    completed, a second [transitionOut], whatever the schedule, calls no
    callback at all; it only resets the scroll position again. *)
Theorem second_leave_runs_nothing (schedule schedule' : list nat) (w : world) :
  no_throw w ->
  schedule ≡ₚ seq 0 (length (pageOut w)) ->
  transitionOut schedule' (transitionOut schedule w).1.1 =
    ((transitionOut schedule w).1.1, [EvScrollToTop], Resolves).
Proof.
  intros [Hpo Hd] Hsched.
  assert ((transitionOut schedule w).1.1 =
          Scroll_toTop (set_destroy [] (set_pageOut [] w))) as ->.
  { unfold transitionOut, runPageOut.
    rewrite (LifecycleFacts.map_call_returns w _ Hpo).
    rewrite <- (length_fmap (settlement_of w)) in Hsched.
    destruct (LifecycleFacts.settle_permutation _ schedule Hsched) as [Hall _].
    destruct (settle _ schedule ∅) as [settled done']. simpl in Hall.
    rewrite Hall. unfold runDestroy. simpl.
    by rewrite (LifecycleFacts.forEach_destroy_returns _ Hd). }
  unfold transitionOut, runPageOut. simpl. by rewrite settle_nothing.
Qed.

Lemma second_leave_runs_nothing_witness :
  transitionOut [5; 0]%nat (transitionOut [2; 0; 1]%nat one_rejects).1.1 =
    ((transitionOut [2; 0; 1]%nat one_rejects).1.1, [EvScrollToTop], Resolves).
Proof.
  apply (second_leave_runs_nothing [2; 0; 1]%nat [5; 0]%nat one_rejects).
  - split; simpl; repeat constructor; discriminate.
  - simpl. change [2; 0; 1]%nat with ([2]%nat ++ [0; 1]%nat).
    apply Permutation_app_comm.
Defined.

End TransitionFacts.

(* ===================================================================== *)
(** * More properties of createCycles *)
(* ===================================================================== *)

Module CyclesMoreFacts.

Import Cycles CyclesMore.

Section Scan.

Variable modules : gmap string export.

(** X13.  A [.ts] module shadows the [.js] module of the same name: when
    the table has the [.ts] path, its default export decides what happens
    to the element, and the [.js] module is not looked at, not even when
    the [.ts] export is not a function and the [.js] one is. *)
Theorem ts_module_shadows_js (clock : nat) (e : HTMLElement) (m : export) :
  _moduleInitialized e = false ->
  modules !! ("./../" +:+ attributeValue e +:+ ".ts") = Some m ->
  visit modules clock e =
    match m with
    | DefaultFunction moduleFn =>
        match moduleFn clock (set_initialized true e) with
        | Returned v =>
            {| element_after := set_initialized true e; item := v;
               warned := []; called := [el_id e] |}
        | Thrown error =>
            {| element_after := e; item := Null;
               warned := [FailedToCall (attributeValue e) error];
               called := [el_id e] |}
        end
    | NotAFunction =>
        {| element_after := e; item := Null;
           warned := [DefaultNotAFunction (attributeValue e)]; called := [] |}
    end.
Proof.
  intros He Hts. unfold visit, modulePath. rewrite He, Hts.
  rewrite bool_decide_true by eauto. rewrite Hts.
  destruct m as [moduleFn|]; [|done].
  destruct (moduleFn clock (set_initialized true e)); [done|].
  by rewrite CyclesFacts.set_initialized_twice, <- He,
             CyclesFacts.set_initialized_same.
Qed.

(** The marker after a visit. *)
Lemma visit_marker clock e :
  element_after (visit modules clock e) =
  set_initialized (marked_after e (visit modules clock e)) e.
Proof.
  unfold marked_after, binding_returned, visit.
  destruct e as [i v b]. simpl. destruct b; simpl; [done|].
  destruct (modules !! modulePath modules v) as [[fn|]|]; simpl; [|done|done].
  by destruct (fn _).
Qed.

Lemma visits_marker dom : ∀ clock,
  Forall2 (fun e s => element_after s = set_initialized (marked_after e s) e)
          dom (visits modules clock dom).
Proof.
  induction dom as [|e dom IH]; intros clock; simpl; constructor.
  - apply visit_marker.
  - apply IH.
Qed.

(** X14.  A scan changes nothing of the elements but the marker, keeps
    their order, never removes a marker that was there before, and sets it
    on exactly the elements whose binding it called and which returned. *)
Theorem scan_marks_exactly_the_initialized (clock : nat) (dom : list HTMLElement) :
  let steps := visits modules clock dom in
  document (createCycles modules clock dom) = element_after <$> steps ∧
  Forall2 (fun e s =>
             element_after s = set_initialized (marked_after e s) e ∧
             el_id (element_after s) = el_id e ∧
             attributeValue (element_after s) = attributeValue e ∧
             (_moduleInitialized e = true ->
              _moduleInitialized (element_after s) = true) ∧
             (_moduleInitialized (element_after s) = true <->
              _moduleInitialized e = true ∨ binding_returned s = true))
          dom steps.
Proof.
  cbv zeta. split; [done|].
  eapply Forall2_impl; [apply visits_marker|].
  intros e s Hs. cbn beta in Hs. rewrite Hs. unfold marked_after. simpl.
  repeat split.
  - intros ->. done.
  - intros H. apply orb_true_iff in H. done.
  - intros H. apply orb_true_iff. done.
Qed.

(** X15.  [clearModuleInitialization] undoes an initialization: applied
    to an element that a scan initialized, it gives back the element as it
    was, so that the next scan calls its binding again. *)
Theorem clearModuleInitialization_allows_rescan
    (clock later : nat) (e : HTMLElement) :
  binding_returned (visit modules clock e) = true ->
  clearModuleInitialization (element_after (visit modules clock e)) = e ∧
  calls (createCycles modules later [element_after (visit modules clock e)]) = [] ∧
  calls (createCycles modules later
           [clearModuleInitialization (element_after (visit modules clock e))]) =
    [el_id e].
Proof.
  intros Hret.
  assert (_moduleInitialized e = false) as He.
  { unfold binding_returned, visit in Hret.
    by destruct (_moduleInitialized e). }
  assert (clearModuleInitialization (element_after (visit modules clock e)) = e)
    as Hclear.
  { rewrite visit_marker. unfold clearModuleInitialization.
    by rewrite CyclesFacts.set_initialized_twice, <- He,
               CyclesFacts.set_initialized_same. }
  split; [done|]. rewrite Hclear, !CyclesFacts.createCycles_one. split.
  - destruct (CyclesFacts.visit_again modules clock later e) as (Hc & _).
    simpl in Hc. rewrite Hc. unfold binding_threw, binding_returned in *.
    destruct (called (visit modules clock e)), (warned (visit modules clock e));
      done.
  - unfold binding_returned in Hret. unfold visit in *. rewrite He in *.
    destruct (modules !! modulePath modules (attributeValue e)) as [[fn|]|];
      simpl in *; try done.
    by destruct (fn later (set_initialized true e)).
Qed.

(** The warnings about the table of modules that a later visit logs are
    those of the first visit. *)
Lemma visit_warns_again clock later e :
  filter (fun w => ¬ is_failed_call w)
    (warned (visit modules later (element_after (visit modules clock e)))) =
  filter (fun w => ¬ is_failed_call w) (warned (visit modules clock e)).
Proof.
  destruct e as [i v b]. unfold visit. simpl. destruct b; simpl; [done|].
  destruct (modules !! modulePath modules v) as [[fn|]|] eqn:Hm; simpl.
  - destruct (fn clock _) eqn:Hfn; simpl; [done|]. rewrite Hm.
    destruct (fn later _); simpl; [done|].
    rewrite !filter_cons_False by (simpl; tauto). done.
  - by rewrite Hm.
  - by rewrite Hm.
Qed.

(** X16.  The warnings about the table of modules are logged again by
    every later scan over the same elements: an element whose module is
    missing, or whose default export is not a function, is never marked,
    whatever the bindings of the other elements do. *)
Theorem rescan_repeats_warnings (clock later : nat) (dom : list HTMLElement) :
  filter (fun w => ¬ is_failed_call w)
    (warnings (createCycles modules later
                 (document (createCycles modules clock dom)))) =
  filter (fun w => ¬ is_failed_call w)
    (warnings (createCycles modules clock dom)).
Proof.
  revert clock later. induction dom as [|e dom IH]; intros clock later; [done|].
  rewrite (CyclesFacts.createCycles_cons modules clock e dom). cbn [document].
  rewrite CyclesFacts.createCycles_cons. cbn [warnings].
  by rewrite !filter_app, IH, visit_warns_again.
Qed.

(** X17.  A binding that returns [null] initializes its element like any
    other, but adds nothing to the array that [createCycles] returns; any
    other value, [undefined] too, is in the array. *)
Theorem null_component_is_dropped
    (clock : nat) (before after : list HTMLElement) (e : HTMLElement)
    (moduleFn : nat -> HTMLElement -> result) (v : jsval) :
  let first := createCycles modules clock before in
  let rest := createCycles modules (S (clock_after first)) after in
  _moduleInitialized e = false ->
  modules !! modulePath modules (attributeValue e) = Some (DefaultFunction moduleFn) ->
  moduleFn (clock_after first) (set_initialized true e) = Returned v ->
  let scanned := createCycles modules clock (before ++ e :: after) in
  returned scanned =
    returned first ++ (if decide (v = Null) then [] else [v]) ++ returned rest ∧
  document scanned =
    document first ++ set_initialized true e :: document rest.
Proof.
  intros first rest He Hm Hfn.
  assert (visit modules (clock_after first) e =
          {| element_after := set_initialized true e; item := v;
             warned := []; called := [el_id e] |}) as Hvisit.
  { unfold visit. by rewrite He, Hm, Hfn. }
  cbv zeta. rewrite CyclesFacts.createCycles_app. cbv zeta. fold first.
  rewrite CyclesFacts.createCycles_cons. cbv zeta. rewrite Hvisit.
  cbn [document returned element_after item called length].
  rewrite Nat.add_1_r. fold rest.
  split; [|done]. rewrite filter_cons, filter_nil.
  destruct (decide (v = Null)) as [->|Hv].
  - rewrite decide_False by (intros H; by apply H). done.
  - by rewrite decide_True.
Qed.

End Scan.

Lemma ts_module_shadows_js_witness :
  visit sample_shadowed 0 sample_menu =
    {| element_after := sample_menu; item := Null;
       warned := [DefaultNotAFunction "menu"]; called := [] |}.
Proof.
  apply (ts_module_shadows_js sample_shadowed 0 sample_menu NotAFunction).
  - reflexivity.
  - by vm_compute.
Defined.

Lemma clearModuleInitialization_allows_rescan_witness :
  calls (createCycles sample_modules 1
           [clearModuleInitialization
              (element_after (visit sample_modules 0
                 {| el_id := 0; attributeValue := "ok";
                    _moduleInitialized := false |}))]) = [0%nat].
Proof.
  refine (proj2 (proj2 (clearModuleInitialization_allows_rescan sample_modules
            0 1
            {| el_id := 0; attributeValue := "ok"; _moduleInitialized := false |}
            _))).
  by vm_compute.
Defined.

Lemma null_component_is_dropped_witness :
  returned (createCycles
              (<["./../quiet.ts" := DefaultFunction (fun _ _ => Returned Null)]>
                 sample_modules) 0
              ([] ++ {| el_id := 5; attributeValue := "quiet";
                        _moduleInitialized := false |} :: sample_dom)) =
  [Component 0].
Proof.
  refine (proj1 (null_component_is_dropped
            (<["./../quiet.ts" := DefaultFunction (fun _ _ => Returned Null)]>
               sample_modules) 0
            [] sample_dom
            {| el_id := 5; attributeValue := "quiet"; _moduleInitialized := false |}
            (fun _ _ => Returned Null) Null _ _ _)).
  - reflexivity.
  - by vm_compute.
  - reflexivity.
Defined.

End CyclesMoreFacts.

(* ===================================================================== *)
(** * Properties of the enter phase *)
(* ===================================================================== *)

Module EnterFacts.

Import Lifecycle Enter.

Lemma forEach_mount_returns l :
  Forall (fun f => df_throws f = false) l ->
  forEach_mount l = (mounted l, false).
Proof.
  unfold mounted. induction 1 as [|f l Hf _ IH]; simpl; [done|].
  by rewrite Hf, IH.
Qed.

Lemma map_call_is_calls w l : Forall is_call (map_call w l).1.
Proof.
  induction l as [|e l IH]; simpl; [done|].
  assert (Forall is_call (call_entry w e).1) as He.
  { destruct e as [f|el f]; simpl; [by repeat constructor|].
    destruct (isCurrentlyVisible w el); by repeat constructor. }
  destruct (call_entry w e) as [evs [s|]]; simpl in *; [|done].
  destruct (map_call w l) as [evs' ps]. simpl in *. by apply Forall_app.
Qed.

Lemma map_call_plain_throws w pre f post :
  Forall (fun g => pf_does g <> ThrowsSync) pre ->
  pf_does f = ThrowsSync ->
  map_call w (Plain <$> (pre ++ f :: post)) = (pageIn_calls (pre ++ [f]), None).
Proof.
  unfold pageIn_calls. induction 1 as [|g pre Hg _ IH]; intros Hf.
  - simpl. by rewrite Hf.
  - change ((g :: pre) ++ f :: post) with (g :: (pre ++ f :: post)).
    change ((g :: pre) ++ [f]) with (g :: (pre ++ [f])).
    rewrite !fmap_cons. cbn [map_call call_entry].
    destruct (pf_does g); [|done]. by rewrite (IH Hf).
Qed.

(** The dispatch of an array of functions that return promises. *)
Lemma map_call_plain w l :
  Forall (fun f => pf_does f <> ThrowsSync) l ->
  map_call w (Plain <$> l) = (pageIn_calls l, Some (settles_as <$> l)).
Proof.
  intros Hl. rewrite LifecycleFacts.map_call_returns.
  - unfold expected_calls, pageIn_calls. f_equal.
    + clear Hl. induction l as [|f l IH]; [done|].
      rewrite !fmap_cons, bind_cons, IH. done.
    + by rewrite <- list_fmap_compose.
  - apply Forall_fmap. eapply Forall_impl; [exact Hl|]. done.
Qed.

Lemma fold_register rs : ∀ p,
  let p' := foldl (fun acc r => register r acc) p rs in
  mount p' = mount p ++ mounts rs ∧
  pageIn p' = pageIn p ++ pageIns rs ∧
  dom p' = dom p ∧
  clock p' = clock p.
Proof.
  unfold mounts, pageIns. induction rs as [|r rs IH]; intros p; simpl.
  - by rewrite !app_nil_r.
  - destruct (IH (register r p)) as (-> & -> & -> & ->).
    destruct r; simpl; rewrite <- ?app_assoc; done.
Qed.

Section Bindings.

Variable modules : gmap string Cycles.export.
Variable registers : nat -> nat -> list registration.

(** What [createCycles] leaves: the elements as the scan marked them,
    and in the arrays, behind what was there, what the bindings called
    registered, in the order of the calls. *)
Lemma createCycles_registers p :
  let scanned := Cycles.createCycles modules (clock p) (dom p) in
  let rs := registrations registers (clock p) (Cycles.calls scanned) in
  let p1 := (createCycles modules registers p).1 in
  (createCycles modules registers p).2 = Bound <$> Cycles.calls scanned ∧
  mount p1 = mount p ++ mounts rs ∧
  pageIn p1 = pageIn p ++ pageIns rs ∧
  dom p1 = Cycles.document scanned ∧
  clock p1 = Cycles.clock_after scanned.
Proof.
  cbv zeta. unfold createCycles. cbn [fst snd]. split; [done|].
  exact (fold_register _ _).
Qed.

(** X18.  When no [pageIn] and no [mount] callback throws, whatever the
    order in which the promises settle: [transitionIn] calls the bindings
    of the new elements, then [Scroll.resize()] and [Resize.update()],
    calls every [pageIn] callback in registration order, those just
    registered by the bindings too, waits until the promise of each has
    settled, rejected or not, and only then runs every [mount] callback
    once in registration order; both arrays are empty afterwards, and what
    the bindings registered for the leave phase is left in place. *)
Theorem transitionIn_joins_then_mounts (schedule : list nat) (p : t) :
  let scanned := Cycles.createCycles modules (clock p) (dom p) in
  let rs := registrations registers (clock p) (Cycles.calls scanned) in
  let p1 := (createCycles modules registers p).1 in
  Forall (fun f => pf_does f <> ThrowsSync) (pageIn p1) ->
  Forall (fun f => df_throws f = false) (mount p1) ->
  schedule ≡ₚ seq 0 (length (pageIn p1)) ->
  pageIn p1 = pageIn p ++ pageIns rs ∧
  mount p1 = mount p ++ mounts rs ∧
  ∃ settled,
    transitionIn modules registers schedule p =
      ({| dom := dom p1; clock := clock p1; mount := []; pageIn := [];
          leave := leave p1 |},
       (Bound <$> Cycles.calls scanned) ++ [ScrollResize; ResizeUpdate] ++
       (Phase <$> (pageIn_calls (pageIn p1) ++ settled)) ++ mounted (mount p1),
       Resolves) ∧
    settles_each_once (settles_as <$> pageIn p1) settled.
Proof.
  intros scanned rs p1 Hpi Hm Hsched.
  destruct (createCycles_registers p) as (Hbound & Hmount & HpageIn & _).
  fold scanned rs p1 in Hbound, Hmount, HpageIn.
  split; [done|]. split; [done|].
  unfold transitionIn. rewrite <- Hbound.
  destruct (createCycles modules registers p) as [p1' bound] eqn:Hcc.
  simpl in p1. subst p1. unfold runPageIn.
  rewrite (map_call_plain _ _ Hpi).
  rewrite <- (length_fmap settles_as) in Hsched.
  destruct (LifecycleFacts.settle_permutation _ schedule Hsched) as [Hall Hsettled].
  destruct (settle _ schedule ∅) as [settled done'] eqn:Hs.
  simpl in Hall, Hsettled. rewrite Hall. unfold runMount, clear_pageIn. simpl.
  rewrite (forEach_mount_returns _ Hm). simpl.
  exists settled. rewrite <- !app_assoc. done.
Qed.

(** X19.  In the constructors [runPageIn()] is not awaited: when no
    [mount] callback throws, the [mount] callbacks run right after the
    [pageIn] callbacks were called, before the promise of any of them
    settles, and they run all the same when a [pageIn] callback throws
    before it returns a promise. *)
Theorem constructor_mounts_before_settlement (schedule : list nat) (p : t) :
  let p1 := (createCycles modules registers p).1 in
  Forall (fun f => df_throws f = false) (mount p1) ->
  ∃ called settled,
    (constructor modules registers schedule p).1.2 =
      (createCycles modules registers p).2 ++ (Phase <$> called) ++
      mounted (mount p1) ++ (Phase <$> settled) ∧
    (constructor modules registers schedule p).2 = Return ∧
    mount (constructor modules registers schedule p).1.1 = [] ∧
    called = (map_call (leave p1) (Plain <$> pageIn p1)).1 ∧
    Forall is_call called ∧
    Forall (fun e => is_Some (settled_index e)) settled.
Proof.
  intros p1 Hm. unfold constructor.
  destruct (createCycles modules registers p) as [p1' bound] eqn:Hcc.
  simpl in p1. subst p1.
  pose proof (map_call_is_calls (leave p1') (Plain <$> pageIn p1')) as Hcalls.
  destruct (map_call (leave p1') (Plain <$> pageIn p1')) as [called promises].
  unfold runMount. rewrite (forEach_mount_returns _ Hm). simpl in *.
  destruct promises as [ps|].
  - destruct (LifecycleFacts.settle_only_scheduled ps schedule ∅) as [_ Hsettled].
    destruct (settle ps schedule ∅) as [settled done']. simpl in *.
    exists called, settled. repeat split; try done.
    by destruct (all_settled ps done').
  - exists called, []. simpl. repeat split; done.
Qed.

(** X20.  In [transitionIn], a [pageIn] callback that throws before it
    returns a promise ends the phase: the [pageIn] callbacks after it are
    not called, no [mount] callback runs, both arrays keep their entries
    and [transitionIn] rejects. *)
Theorem pageIn_throw_stops_enter
    (schedule : list nat) (p : t)
    (pre : list page_fn) (f : page_fn) (post : list page_fn) :
  let p1 := (createCycles modules registers p).1 in
  pageIn p1 = pre ++ f :: post ->
  Forall (fun g => pf_does g <> ThrowsSync) pre ->
  pf_does f = ThrowsSync ->
  transitionIn modules registers schedule p =
    (p1,
     (createCycles modules registers p).2 ++ [ScrollResize; ResizeUpdate] ++
     (Phase <$> ((fun g => EvCalled (pf_name g)) <$> (pre ++ [f]))),
     Rejects).
Proof.
  intros p1 Hpi Hpre Hf. unfold transitionIn.
  destruct (createCycles modules registers p) as [p1' bound] eqn:Hcc.
  simpl in p1. subst p1. unfold runPageIn.
  rewrite Hpi, (map_call_plain_throws _ pre f post Hpre Hf).
  by rewrite <- app_assoc.
Qed.

(** X21.  What a binding registered before it threw stays registered:
    only the marker is rolled back.  After two scans the [mount] array
    holds what the bindings called by the first scan registered, those
    that threw too, followed by what the bindings called again by the
    second scan, those that had thrown, registered this time. *)
Theorem retried_binding_registers_again (p : t) :
  let first := Cycles.createCycles modules (clock p) (dom p) in
  let retried :=
    (fun s => Cycles.el_id (Cycles.element_after s)) <$>
      filter (fun s => Cycles.binding_threw s = true)
             (Cycles.visits modules (clock p) (dom p)) in
  let p1 := (createCycles modules registers p).1 in
  let p2 := (createCycles modules registers p1).1 in
  (createCycles modules registers p1).2 = Bound <$> retried ∧
  mount p2 =
    mount p ++
    mounts (registrations registers (clock p) (Cycles.calls first)) ++
    mounts (registrations registers (Cycles.clock_after first) retried).
Proof.
  cbv zeta.
  destruct (createCycles_registers p) as (_ & Hm1 & _ & Hd1 & Hc1).
  destruct (createCycles_registers (createCycles modules registers p).1)
    as (Hb2 & Hm2 & _).
  cbv zeta in *. rewrite Hd1, Hc1, CyclesFacts.rescan_calls in Hb2, Hm2.
  split; [done|]. by rewrite Hm2, Hm1, <- app_assoc.
Qed.

End Bindings.

Lemma transitionIn_joins_then_mounts_witness :
  ∃ settled,
    transitionIn Cycles.sample_modules sample_registers [0]%nat sample_page =
      ({| dom := dom (createCycles Cycles.sample_modules sample_registers
                        sample_page).1;
          clock := 2; mount := []; pageIn := [];
          leave := leave (createCycles Cycles.sample_modules sample_registers
                            sample_page).1 |},
       [Bound 0; Bound 1] ++ [ScrollResize; ResizeUpdate] ++
       (Phase <$> ([EvCalled 20] ++ settled)) ++ [Mounted 21; Mounted 31],
       Resolves) ∧
    settles_each_once [Rejected] settled.
Proof.
  refine (proj2 (proj2 (transitionIn_joins_then_mounts Cycles.sample_modules
                          sample_registers [0]%nat sample_page _ _ _))).
  - vm_compute. repeat constructor. discriminate.
  - vm_compute. repeat constructor.
  - by vm_compute.
Defined.

Lemma constructor_mounts_before_settlement_witness :
  (constructor ∅ (fun _ _ => []) [] sample_throwing_pageIn).2 = Return ∧
  mount (constructor Cycles.sample_modules sample_registers [0]%nat
           sample_page).1.1 = [].
Proof.
  split.
  - destruct (constructor_mounts_before_settlement ∅ (fun _ _ => []) []
                sample_throwing_pageIn) as (called & settled & _ & H & _).
    + repeat constructor.
    + exact H.
  - destruct (constructor_mounts_before_settlement Cycles.sample_modules
                sample_registers [0]%nat sample_page)
      as (called & settled & _ & _ & H & _).
    + vm_compute. repeat constructor.
    + exact H.
Defined.

(** The runs in full: in the constructor the [mount] callbacks come
    before the settlement, and after a [pageIn] callback that threw; a
    second scan calls the binding of element 1 again, which registers
    another [mount] callback beside the one of its first call. *)
Lemma constructor_sample_runs :
  (constructor ∅ (fun _ _ => []) [] sample_throwing_pageIn).1.2 =
    [Phase (EvCalled 40); Mounted 41] ∧
  (constructor Cycles.sample_modules sample_registers [0]%nat sample_page).1.2 =
    [Bound 0; Bound 1; Phase (EvCalled 20); Mounted 21; Mounted 31;
     Phase (EvSettled 0 Rejected)] ∧
  (transitionIn Cycles.sample_modules sample_registers [0]%nat sample_page).1.2 =
    [Bound 0; Bound 1; ScrollResize; ResizeUpdate;
     Phase (EvCalled 20); Phase (EvSettled 0 Rejected);
     Mounted 21; Mounted 31] ∧
  mount (createCycles Cycles.sample_modules sample_registers
           (createCycles Cycles.sample_modules sample_registers
              sample_page).1).1 =
    [ {| df_name := 21; df_throws := false |};
      {| df_name := 31; df_throws := false |};
      {| df_name := 32; df_throws := false |} ].
Proof. repeat split; by vm_compute. Qed.

Lemma pageIn_throw_stops_enter_witness :
  transitionIn ∅ (fun _ _ => []) [] sample_throwing_pageIn =
    (sample_throwing_pageIn,
     [ScrollResize; ResizeUpdate; Phase (EvCalled 40)], Rejects).
Proof.
  apply (pageIn_throw_stops_enter ∅ (fun _ _ => []) [] sample_throwing_pageIn
           [] {| pf_name := 40; pf_does := ThrowsSync |} []).
  - reflexivity.
  - constructor.
  - reflexivity.
Defined.

End EnterFacts.

(* ===================================================================== *)
(** * Properties of SimpleEmitter *)
(* ===================================================================== *)

Module EmitterFacts.

Import Emitter.

Lemma get_own e l s : events s !! e = Some l -> get e s = Own l.
Proof. unfold get. by intros ->. Qed.

Lemma get_absent e s :
  events s !! e = None -> inherited e = false -> get e s = Absent.
Proof. unfold get. by intros -> ->. Qed.

Lemma get_inherited e s :
  events s !! e = None -> inherited e = true -> get e s = Inherited.
Proof. unfold get. by intros -> ->. Qed.

Lemma on_registers e x s :
  inherited e = false ->
  on e x s =
    ({| events := <[e := handlers e s ++ [x]]> (events s);
        next_serial := next_serial s |}, Return).
Proof.
  intros He. unfold on, handlers, get.
  destruct (events s !! e) as [l|]; simpl; [done|]. by rewrite He.
Qed.

Lemma off_filters e x l s :
  events s !! e = Some l ->
  off e x s =
    ({| events := <[e := filter (fun h => h <> x) l]> (events s);
        next_serial := next_serial s |}, Return).
Proof. intros Hl. unfold off. by rewrite (get_own e l s Hl). Qed.

Lemma handlers_on_same e x s :
  inherited e = false -> handlers e (on e x s).1 = handlers e s ++ [x].
Proof.
  intros He. rewrite (on_registers e x s He). unfold handlers. simpl.
  by rewrite lookup_insert_eq.
Qed.

Lemma handlers_on_other e e' x s :
  e' <> e -> handlers e' (on e x s).1 = handlers e' s.
Proof.
  intros H. unfold handlers, on. destruct (get e s); simpl; [| done |];
    by rewrite lookup_insert_ne.
Qed.

Lemma handlers_off_same e x s :
  inherited e = false ->
  handlers e (off e x s).1 = filter (fun h => h <> x) (handlers e s).
Proof.
  intros He. unfold handlers, off, get.
  destruct (events s !! e) as [l|] eqn:Hl; simpl.
  - by rewrite lookup_insert_eq.
  - rewrite He. simpl. by rewrite Hl.
Qed.

Lemma handlers_off_other e e' x s :
  e' <> e -> handlers e' (off e x s).1 = handlers e' s.
Proof.
  intros H. unfold handlers, off. destruct (get e s); simpl; [| done | done].
  by rewrite lookup_insert_ne.
Qed.

Lemma made_for_mono e n n' x : (n <= n')%nat -> made_for e n x -> made_for e n' x.
Proof. destruct x; simpl; [done|]. intros ? [? ?]. split; [done | lia]. Qed.

Lemma well_formed_empty : well_formed empty.
Proof. intros e l H. unfold empty in H. simpl in H. by rewrite lookup_empty in H. Qed.

Lemma well_formed_lookup e s :
  well_formed s -> Forall (made_for e (next_serial s)) (handlers e s).
Proof.
  intros Hwf. unfold handlers. destruct (events s !! e) as [l|] eqn:Hl; simpl.
  - by apply Hwf.
  - constructor.
Qed.

Lemma well_formed_on e x s :
  well_formed s -> made_for e (next_serial s) x -> well_formed (on e x s).1.
Proof.
  intros Hwf Hx. destruct (inherited e) eqn:He.
  - unfold on, get. destruct (events s !! e) as [l|] eqn:Hl.
    + destruct (Hwf _ _ Hl). congruence.
    + by rewrite He.
  - rewrite (on_registers e x s He). intros e' l. simpl.
    destruct (decide (e = e')) as [<-|Hne].
    + rewrite lookup_insert_eq. intros [= <-]. split; [done|].
      apply Forall_app. split.
      * by apply well_formed_lookup.
      * by repeat constructor.
    + rewrite lookup_insert_ne by done. apply Hwf.
Qed.

Lemma well_formed_off e x s : well_formed s -> well_formed (off e x s).1.
Proof.
  intros Hwf e' l. unfold off, get.
  destruct (events s !! e) as [m|] eqn:Hm.
  2:{ destruct (inherited e); apply Hwf. }
  simpl. destruct (decide (e = e')) as [<-|Hne].
  - rewrite lookup_insert_eq. intros [= <-].
    destruct (Hwf _ _ Hm) as [He Hall]. split; [done|].
    apply Forall_forall. intros y Hy. apply list_elem_of_filter in Hy as [_ Hy].
    by apply (proj1 (Forall_forall _ _) Hall).
  - rewrite lookup_insert_ne by done. apply Hwf.
Qed.

Lemma well_formed_once e h s : well_formed s -> well_formed (once e h s).1.
Proof.
  intros Hwf. unfold once. apply well_formed_on.
  - intros e' l Hl. simpl in *. destruct (Hwf _ _ Hl) as [He Hall].
    split; [done|]. eapply Forall_impl; [exact Hall|].
    intros x. apply made_for_mono. lia.
  - simpl. split; [done | lia].
Qed.

Lemma well_formed_run_ops ops : well_formed (run_ops ops empty).
Proof.
  unfold run_ops. induction ops as [|o ops IH] using rev_ind; [apply well_formed_empty|].
  rewrite foldl_app. simpl. destruct o; simpl.
  - by apply well_formed_on.
  - by apply well_formed_once.
  - by apply well_formed_off.
Qed.

Lemma filter_ext_elem {A} (P Q : A -> Prop)
    `{!∀ x, Decision (P x), !∀ x, Decision (Q x)} (l : list A) :
  (∀ x, x ∈ l -> (P x <-> Q x)) -> filter P l = filter Q l.
Proof.
  induction l as [|a l IH]; intros Hext; [done|].
  rewrite !filter_cons, IH.
  - destruct (decide (P a)) as [Ha|Ha], (decide (Q a)) as [Hb|Hb]; try done.
    + exfalso. apply Hb, Hext; [left | done].
    + exfalso. apply Ha, Hext; [left | done].
  - intros x Hx. apply Hext. by right.
Qed.

Section Emit.

Variable throws : nat -> bool.

(** The loop over handlers that return: all of them are invoked, and the
    entry of the event loses the wrappers among them. *)
Lemma forEach_returns e xs : ∀ s m,
  events s !! e = Some m ->
  Forall (fun x => ∃ n, made_for e n x) xs ->
  Forall (returns throws) xs ->
  (forEach throws xs s).1.2 = xs ∧
  (forEach throws xs s).2 = Return ∧
  events (forEach throws xs s).1.1 !! e =
    Some (filter (fun y => is_given y ∨ y ∉ xs) m) ∧
  (∀ e', e' <> e -> events (forEach throws xs s).1.1 !! e' = events s !! e') ∧
  next_serial (forEach throws xs s).1.1 = next_serial s.
Proof.
  induction xs as [|x xs IH]; intros s m Hm Hown Hret; simpl.
  - repeat split; try done. rewrite Hm. f_equal. clear.
    induction m as [|a m IH]; [done|].
    rewrite filter_cons_True by (right; apply not_elem_of_nil).
    by rewrite <- IH at 1.
  - apply Forall_cons in Hown as [[n Hx] Hown].
    apply Forall_cons in Hret as [Hxr Hret].
    destruct x as [h|k ev h]; simpl in *; rewrite Hxr.
    + destruct (IH s m Hm Hown Hret) as (H1 & H2 & H3 & H4 & H5).
      destruct (forEach throws xs s) as [[s' inv] c]. simpl in *.
      subst. repeat split; try done. rewrite H3. f_equal.
      apply list_filter_iff. intros y. rewrite not_elem_of_cons. split.
      * intros [Hy|Hy]; [by left|]. destruct (decide (y = Given h)) as [->|Hne].
        { by left. } { right. done. }
      * intros [Hy|[_ Hy]]; [by left | by right].
    + destruct Hx as [-> _]. rewrite (off_filters e _ m s Hm).
      set (s1 := {| events := <[e := filter (fun y => y <> OnceHandler k e h) m]>
                                (events s);
                    next_serial := next_serial s |}).
      assert (events s1 !! e =
              Some (filter (fun y => y <> OnceHandler k e h) m)) as Hm'.
      { unfold s1. simpl. by rewrite lookup_insert_eq. }
      destruct (IH _ _ Hm' Hown Hret) as (H1 & H2 & H3 & H4 & H5).
      destruct (forEach throws xs s1) as [[s' inv] c].
      simpl in *. subst. repeat split; try done.
      * rewrite H3, list_filter_filter. f_equal.
        apply list_filter_iff. intros y. rewrite not_elem_of_cons. split.
        { intros [[Hy|Hy] Hne]; [by left | by right]. }
        { intros [Hy|[Hne Hy]]; [|split; [by right | done]].
          split; [by left|]. intros ->. done. }
      * intros e' He'. rewrite H4 by done. unfold s1. simpl.
        by rewrite lookup_insert_ne.
Qed.

Lemma emit_returns e s :
  inherited e = false ->
  well_formed s ->
  Forall (returns throws) (handlers e s) ->
  (emit throws e s).1.2 = handlers e s ∧
  (emit throws e s).2 = Return ∧
  handlers e (emit throws e s).1.1 = filter is_given (handlers e s) ∧
  (∀ e', e' <> e -> handlers e' (emit throws e s).1.1 = handlers e' s) ∧
  well_formed (emit throws e s).1.1.
Proof.
  intros He Hwf Hret. unfold emit, handlers, get in *.
  destruct (events s !! e) as [l|] eqn:Hl; simpl in *.
  2:{ rewrite He. simpl. by rewrite Hl. }
  destruct (forEach_returns e l s l Hl) as (H1 & H2 & H3 & H4 & H5); [|done|].
  { eapply Forall_impl; [by apply Hwf|]. intros x; eauto. }
  split; [done|]. split; [done|]. split; [|split].
  - rewrite H3. simpl. apply filter_ext_elem. intros y Hy. split.
    + by intros [?|?].
    + by left.
  - intros e' He'. by rewrite H4.
  - intros e' m Hm. rewrite H5. destruct (decide (e' = e)) as [->|Hne].
    + rewrite H3 in Hm. injection Hm as <-. split; [done|].
      apply Forall_forall. intros y Hy. apply list_elem_of_filter in Hy as [_ Hy].
      by apply (proj1 (Forall_forall _ _) (proj2 (Hwf _ _ Hl))).
    + rewrite H4 in Hm by done. by apply Hwf.
Qed.

(** X22.  For an event whose name is not one that every object inherits:
    when the functions registered for the event return, [emit] calls every
    handler of the event once, in the order they were registered;
    afterwards the handlers registered with [once] are gone from the
    entry, those registered with [on] are all still there, the other
    events are untouched, and a second [emit] calls only the handlers
    registered with [on]. *)
Theorem emit_calls_all_and_drops_once (e : string) (s : t) :
  inherited e = false ->
  well_formed s ->
  Forall (returns throws) (handlers e s) ->
  (emit throws e s).1.2 = handlers e s ∧
  (emit throws e s).2 = Return ∧
  handlers e (emit throws e s).1.1 = filter is_given (handlers e s) ∧
  (∀ e', e' <> e -> handlers e' (emit throws e s).1.1 = handlers e' s) ∧
  (emit throws e (emit throws e s).1.1).1.2 = filter is_given (handlers e s).
Proof.
  intros He Hwf Hret.
  destruct (emit_returns e s He Hwf Hret) as (H1 & H2 & H3 & H4 & H5).
  repeat split; try done.
  destruct (emit_returns e (emit throws e s).1.1 He H5) as (H6 & _).
  - rewrite H3. apply Forall_forall. intros y Hy.
    apply list_elem_of_filter in Hy as [_ Hy].
    by apply (proj1 (Forall_forall _ _) Hret).
  - by rewrite H6, H3.
Qed.

Lemma forEach_app xs ys s :
  forEach throws (xs ++ ys) s =
  match forEach throws xs s with
  | (s', invoked, Return) =>
      let '(s'', invoked', c) := forEach throws ys s' in
      (s'', invoked ++ invoked', c)
  | r => r
  end.
Proof.
  revert s. induction xs as [|x xs IH]; intros s; simpl.
  - by destruct (forEach throws ys s) as [[? ?] ?].
  - destruct (call throws x s) as [s' [|]]; [|done].
    rewrite IH. destruct (forEach throws xs s') as [[s'' inv] [|]]; [|done].
    by destruct (forEach throws ys s'') as [[? ?] ?].
Qed.

(** X23.  For an event whose name is not one that every object inherits:
    a function registered with [once] that throws when it is called is not
    unregistered: [emit] throws, and the wrapper is still in the entry of
    the event, to be called again by the next [emit]. *)
Theorem throwing_once_handler_stays (e : string) (h : nat) (s : t) :
  inherited e = false ->
  well_formed s ->
  Forall (returns throws) (handlers e s) ->
  throws h = true ->
  let wrapper := OnceHandler (next_serial s) e h in
  (once e h s).2 = Return ∧
  (emit throws e (once e h s).1).2 = Throw ∧
  (emit throws e (once e h s).1).1.2 = handlers e s ++ [wrapper] ∧
  wrapper ∈ handlers e (emit throws e (once e h s).1).1.1.
Proof.
  intros He Hwf Hret Hh wrapper.
  assert (once e h s =
          ({| events := <[e := handlers e s ++ [wrapper]]> (events s);
              next_serial := S (next_serial s) |}, Return)) as Honce.
  { unfold once. by rewrite on_registers. }
  rewrite Honce. cbn [fst snd]. split; [done|].
  set (s1 := {| events := <[e := handlers e s ++ [wrapper]]> (events s);
                next_serial := S (next_serial s) |}).
  assert (events s1 !! e = Some (handlers e s ++ [wrapper])) as Hl.
  { unfold s1. simpl. by rewrite lookup_insert_eq. }
  unfold emit. rewrite (get_own _ _ _ Hl), forEach_app.
  destruct (forEach_returns e (handlers e s) s1 _ Hl)
    as (H1 & H2 & H3 & _); [|done|].
  { eapply Forall_impl; [by apply well_formed_lookup|]. intros x; eauto. }
  destruct (forEach throws (handlers e s) s1) as [[s' inv] c].
  simpl in *. subst. rewrite Hh. simpl.
  split; [done|]. split; [done|].
  unfold handlers at 1. rewrite H3. simpl.
  apply list_elem_of_filter. split.
  - right. intros Hin.
    apply (proj1 (Forall_forall _ _) (well_formed_lookup e s Hwf)) in Hin.
    destruct Hin as [_ Hlt]. lia.
  - apply elem_of_app. right. by left.
Qed.

(** X27.  Under a name that every object inherits nothing can be
    registered: on an emitter reached from a new one by calls of [on],
    [once] and [off], the registry has no handler under such a name, and
    [on], [once], [off] and [emit] for it all throw, the registry staying
    as it is and no handler being called. *)
Theorem inherited_event_names_throw
    (ops : list op) (e : string) (x : handler) (h : nat) :
  inherited e = true ->
  let s := run_ops ops empty in
  handlers e s = [] ∧
  on e x s = (s, Throw) ∧
  (once e h s).2 = Throw ∧
  events (once e h s).1 = events s ∧
  off e x s = (s, Throw) ∧
  emit throws e s = (s, [], Throw).
Proof.
  intros He s.
  assert (events s !! e = None) as Hnone.
  { destruct (events s !! e) as [l|] eqn:Hl; [|done].
    destruct (well_formed_run_ops ops _ _ Hl). congruence. }
  unfold handlers, once, on, off, emit, get. simpl. rewrite Hnone, He. done.
Qed.

End Emit.

(** X24.  For an event whose name is not one that every object inherits:
    [off] with the function that was given to [once] does not cancel it:
    what is registered is the wrapper, and it stays in the entry of the
    event; only the registrations made with [on] of that function are
    removed. *)
Theorem off_does_not_cancel_once (e : string) (h : nat) (s : t) :
  inherited e = false ->
  (once e h s).2 = Return ∧
  (off e (Given h) (once e h s).1).2 = Return ∧
  handlers e (off e (Given h) (once e h s).1).1 =
    filter (fun x => x <> Given h) (handlers e s) ++
    [OnceHandler (next_serial s) e h].
Proof.
  intros He. unfold once.
  split; [by rewrite on_registers|].
  split.
  - rewrite on_registers by done. simpl. unfold off, get. simpl.
    by rewrite lookup_insert_eq.
  - rewrite handlers_off_same, handlers_on_same by done.
    rewrite filter_app, filter_cons_True by done. done.
Qed.

(** X25.  For an event whose name is not one that every object inherits:
    [off] removes every registration of the function for the event, also
    those made before the last [on], and leaves the other events as they
    are: [on] followed by [off] is not an undo when the function was
    registered before. *)
Theorem off_removes_every_registration (e : string) (x : handler) (s : t) :
  inherited e = false ->
  (on e x s).2 = Return ∧
  (off e x (on e x s).1).2 = Return ∧
  handlers e (off e x (on e x s).1).1 = filter (fun y => y <> x) (handlers e s) ∧
  ∀ e', e' <> e -> handlers e' (off e x (on e x s).1).1 = handlers e' s.
Proof.
  intros He. split; [by rewrite on_registers|]. split; [|split].
  - rewrite on_registers by done. simpl. unfold off, get. simpl.
    by rewrite lookup_insert_eq.
  - rewrite handlers_off_same, handlers_on_same, filter_app by done.
    rewrite filter_cons_False by (intros H; by apply H).
    by rewrite filter_nil, app_nil_r.
  - intros e' He'. by rewrite handlers_off_other, handlers_on_other.
Qed.

Lemma emit_calls_all_and_drops_once_witness :
  (emit sample_throws "user" (run_ops sample_history empty)).1.2 =
    [Given 1; OnceHandler 0 "user" 2; Given 1] ∧
  handlers "user" (emit sample_throws "user" (run_ops sample_history empty)).1.1 =
    [Given 1; Given 1].
Proof.
  destruct (emit_calls_all_and_drops_once sample_throws "user"
              (run_ops sample_history empty)) as (H1 & _ & H3 & _).
  - reflexivity.
  - apply well_formed_run_ops.
  - vm_compute. repeat constructor.
  - split; [exact H1 | exact H3].
Defined.

Lemma throwing_once_handler_stays_witness :
  (emit sample_throws "user"
     (once "user" 3 (run_ops sample_history empty)).1).2 = Throw ∧
  OnceHandler 1 "user" 3 ∈
    handlers "user"
      (emit sample_throws "user"
         (once "user" 3 (run_ops sample_history empty)).1).1.1.
Proof.
  destruct (throwing_once_handler_stays sample_throws "user" 3
              (run_ops sample_history empty)) as (_ & H1 & _ & H3).
  - reflexivity.
  - apply well_formed_run_ops.
  - vm_compute. repeat constructor.
  - reflexivity.
  - split; [exact H1 | exact H3].
Defined.

Lemma inherited_event_names_throw_witness :
  on "toString" (Given 1) (run_ops sample_history empty) =
    (run_ops sample_history empty, Throw) ∧
  emit sample_throws "constructor" (run_ops sample_history empty) =
    (run_ops sample_history empty, [], Throw).
Proof.
  split.
  - refine (proj1 (proj2 (inherited_event_names_throw sample_throws
                            sample_history "toString" (Given 1) 1 _))).
    reflexivity.
  - refine (proj2 (proj2 (proj2 (proj2 (proj2
              (inherited_event_names_throw sample_throws
                 sample_history "constructor" (Given 1) 1 _)))))).
    reflexivity.
Defined.

Lemma off_does_not_cancel_once_witness :
  handlers "user"
    (off "user" (Given 1)
       (once "user" 1 (run_ops sample_history empty)).1).1 =
    [OnceHandler 0 "user" 2; OnceHandler 1 "user" 1].
Proof.
  refine (proj2 (proj2 (off_does_not_cancel_once "user" 1
                          (run_ops sample_history empty) _))).
  reflexivity.
Defined.

Lemma off_removes_every_registration_witness :
  handlers "user"
    (off "user" (Given 1)
       (on "user" (Given 1) (run_ops sample_history empty)).1).1 =
    [OnceHandler 0 "user" 2].
Proof.
  refine (proj1 (proj2 (proj2 (off_removes_every_registration "user" (Given 1)
                                 (run_ops sample_history empty) _)))).
  reflexivity.
Defined.

End EmitterFacts.
